(** * extraer-proyecto.py: the tree exporter

  A shallow embedding of [extraer-proyecto.py] and the properties of
  its walk.  The script opens [proyecto_swift.txt] for writing, walks
  the current directory with [os.walk('.')], prunes the sub-directory
  list in place, and appends one record per file whose extension is in
  [extensiones].

  Python [str] values are modelled as [string]: a text is the sequence
  of its UTF-8 bytes, and a file name is the sequence of bytes the file
  system holds, which Python carries through [surrogateescape] when it
  is not UTF-8.  The library functions the script calls
  ([os.path.splitext], [os.path.join], [str.lower], [str.startswith],
  [in], [os.walk], the UTF-8 codec and the newline translation of text
  files) are transcribed from CPython's [posixpath]/[genericpath]/[os]
  modules and its codec.

  The run is that of a POSIX system whose file system encoding is
  UTF-8: the separator is [/] and a line feed is written as it is.  A
  directory can be listed whenever it is scanned, every read returns or
  raises, and the tree does not change while it is walked. *)

From Stdlib Require Import String Ascii List Bool ZArith Lia Permutation.
Import ListNotations.
Open Scope string_scope.

Set Implicit Arguments.

(** ** Python strings *)

Module PyStr.

(** The line feed, written [\n] in the script's literals. *)
Definition nl : string := String (ascii_of_nat 10) EmptyString.

(** [s.startswith(t)] *)
Definition startswith (s t : string) : bool := String.prefix t s.

(** [s.endswith(c)] for a one-character [c]. *)
Fixpoint endswith (s : string) (c : ascii) : bool :=
  match s with
  | EmptyString => false
  | String a EmptyString => Ascii.eqb a c
  | String _ s' => endswith s' c
  end.

(** [t in s]: [t] occurs in [s] as a contiguous substring. *)
Fixpoint contains (t s : string) : bool :=
  if String.prefix t s then true
  else match s with
       | EmptyString => false
       | String _ s' => contains t s'
       end.

(** [s.lower()].  Only the letters A-Z are mapped: no character outside
    ASCII lower-cases to an ASCII letter other than [k] and [i], so for
    the one use in the script (searching for [test]) the byte-wise map
    agrees with Python's Unicode-aware one. *)
Definition lower_ascii (a : ascii) : ascii :=
  let n := nat_of_ascii a in
  if (65 <=? n)%nat && (n <=? 90)%nat then ascii_of_nat (n + 32) else a.

Fixpoint lower (s : string) : string :=
  match s with
  | EmptyString => EmptyString
  | String a s' => String (lower_ascii a) (lower s')
  end.

(** [s.rfind(c)]: the highest index of [c] in [s], or [-1]. *)
Fixpoint rfind_from (c : ascii) (s : string) (i last : Z) : Z :=
  match s with
  | EmptyString => last
  | String a s' => rfind_from c s' (i + 1) (if Ascii.eqb a c then i else last)
  end.

Definition rfind (s : string) (c : ascii) : Z := rfind_from c s 0 (-1).

(** [s[:n]] and [s[n:]] for [0 <= n]. *)
Fixpoint take (n : nat) (s : string) : string :=
  match n, s with
  | S n', String a s' => String a (take n' s')
  | _, _ => EmptyString
  end.

Fixpoint drop (n : nat) (s : string) : string :=
  match n, s with
  | S n', String _ s' => drop n' s'
  | _, _ => s
  end.

(** [x in S] for a set of strings. *)
Definition mem (x : string) (S : list string) : bool :=
  existsb (String.eqb x) S.

(** A character occurs in a string. *)
Fixpoint occurs (c : ascii) (s : string) : Prop :=
  match s with
  | EmptyString => False
  | String a s' => a = c \/ occurs c s'
  end.

End PyStr.
Import PyStr.

(** ** The UTF-8 codec and text files *)

Module Utf8.

Definition byte (a : ascii) : nat := nat_of_ascii a.

Definition CR : ascii := ascii_of_nat 13.
Definition LF : ascii := ascii_of_nat 10.

(** The length of the sequence a first byte announces: 1 for ASCII, 2 to
    4 for the lead bytes [C2]-[F4], 0 for a byte that starts nothing
    ([80]-[C1] and [F5]-[FF]). *)
Definition lead (a : ascii) : nat :=
  let n := byte a in
  if (n <? 128)%nat then 1
  else if (n <? 194)%nat then 0
  else if (n <? 224)%nat then 2
  else if (n <? 240)%nat then 3
  else if (n <? 245)%nat then 4
  else 0.

(** A continuation byte, [80]-[BF]. *)
Definition is_cont (b : ascii) : bool :=
  ((128 <=? byte b) && (byte b <=? 191))%nat.

(** The second byte of a three-byte sequence: [A0]-[BF] after [E0] (no
    overlong form), [80]-[9F] after [ED] (no surrogate). *)
Definition second3 (a b : ascii) : bool :=
  is_cont b
  && (if (byte a =? 224)%nat then (160 <=? byte b)%nat
      else if (byte a =? 237)%nat then (byte b <=? 159)%nat
      else true).

(** The second byte of a four-byte sequence: [90]-[BF] after [F0],
    [80]-[8F] after [F4] (nothing above U+10FFFF). *)
Definition second4 (a b : ascii) : bool :=
  is_cont b
  && (if (byte a =? 240)%nat then (144 <=? byte b)%nat
      else if (byte a =? 244)%nat then (byte b <=? 143)%nat
      else true).

(** The bytes are well-formed UTF-8.  A [str] encodes under
    [encoding='utf-8'] (strict) exactly when it holds no lone surrogate;
    for a name read from the file system that is exactly when its bytes
    are well-formed. *)
Fixpoint utf8_valid (s : string) : bool :=
  match s with
  | EmptyString => true
  | String a s1 =>
      match lead a with
      | 1 => utf8_valid s1
      | 2 =>
          match s1 with
          | String b s2 => is_cont b && utf8_valid s2
          | _ => false
          end
      | 3 =>
          match s1 with
          | String b (String c s3) => second3 a b && is_cont c && utf8_valid s3
          | _ => false
          end
      | 4 =>
          match s1 with
          | String b (String c (String d s4)) =>
              second4 a b && is_cont c && is_cont d && utf8_valid s4
          | _ => false
          end
      | _ => false
      end
  end.

(** [bytes.decode('utf-8', errors='ignore')], the whole input at once:
    a well-formed sequence is kept; at an ill-formed one the decoder
    reports the bytes read so far as the error (one byte for a bad first
    byte, the well-formed start of a sequence cut short by a bad byte,
    everything left when the input ends inside a sequence) and [ignore]
    drops them. *)
Fixpoint decode_ignore (s : string) : string :=
  match s with
  | EmptyString => EmptyString
  | String a s1 =>
      match lead a with
      | 1 => String a (decode_ignore s1)
      | 2 =>
          match s1 with
          | EmptyString => EmptyString
          | String b s2 =>
              if is_cont b then String a (String b (decode_ignore s2))
              else decode_ignore s1
          end
      | 3 =>
          match s1 with
          | EmptyString => EmptyString
          | String b s2 =>
              if second3 a b then
                match s2 with
                | EmptyString => EmptyString
                | String c s3 =>
                    if is_cont c
                    then String a (String b (String c (decode_ignore s3)))
                    else decode_ignore s2
                end
              else decode_ignore s1
          end
      | 4 =>
          match s1 with
          | EmptyString => EmptyString
          | String b s2 =>
              if second4 a b then
                match s2 with
                | EmptyString => EmptyString
                | String c s3 =>
                    if is_cont c then
                      match s3 with
                      | EmptyString => EmptyString
                      | String d s4 =>
                          if is_cont d
                          then String a (String b (String c (String d (decode_ignore s4))))
                          else decode_ignore s3
                      end
                    else decode_ignore s2
                end
              else decode_ignore s1
          end
      | _ => decode_ignore s1
      end
  end.

(** The translation a text file opened with [newline=None] applies when
    it is read: [\r\n] and a lone [\r] become [\n]. *)
Fixpoint universal_newlines (s : string) : string :=
  match s with
  | EmptyString => EmptyString
  | String a s1 =>
      if Ascii.eqb a CR then
        match s1 with
        | String b s2 =>
            if Ascii.eqb b LF then String LF (universal_newlines s2)
            else String LF (universal_newlines s1)
        | EmptyString => String LF EmptyString
        end
      else String a (universal_newlines s1)
  end.

(** [fin.read()] on a file opened with [encoding='utf-8',
    errors='ignore'] whose bytes are [contenido]. *)
Definition read_text (contenido : string) : string :=
  universal_newlines (decode_ignore contenido).

End Utf8.
Import Utf8.

(** ** os.path *)

Module OsPath.

Definition sep : ascii := "/".
Definition extsep : ascii := ".".

(** [genericpath._splitext]:
<<
  sepIndex = p.rfind(sep)
  dotIndex = p.rfind(extsep)
  if dotIndex > sepIndex:
      # skip all leading dots
      filenameIndex = sepIndex + 1
      while filenameIndex < dotIndex:
          if p[filenameIndex:filenameIndex+1] != extsep:
              return p[:dotIndex], p[dotIndex:]
          filenameIndex += 1
  return p, p[:0]
>>
    The [while] loop runs at most [dotIndex - filenameIndex] times,
    which is the counter [n] below. *)
Fixpoint splitext_loop (n : nat) (p : string) (filenameIndex dotIndex : Z)
  : string * string :=
  match n with
  | O => (p, EmptyString)
  | S n' =>
      match String.get (Z.to_nat filenameIndex) p with
      | Some a =>
          if Ascii.eqb a extsep
          then splitext_loop n' p (filenameIndex + 1) dotIndex
          else (take (Z.to_nat dotIndex) p, drop (Z.to_nat dotIndex) p)
      | None => (take (Z.to_nat dotIndex) p, drop (Z.to_nat dotIndex) p)
      end
  end.

Definition splitext (p : string) : string * string :=
  let sepIndex := rfind p sep in
  let dotIndex := rfind p extsep in
  if (dotIndex >? sepIndex)%Z
  then splitext_loop (Z.to_nat (dotIndex - (sepIndex + 1))) p (sepIndex + 1) dotIndex
  else (p, EmptyString).

(** [posixpath.join(a, b)]:
<<
  if b.startswith(sep) or not path:  path = b
  elif path.endswith(sep):           path += b
  else:                              path += sep + b
>> *)
Definition join (a b : string) : string :=
  if startswith b (String sep EmptyString) || (a =? EmptyString)
  then b
  else if endswith a sep then a ++ b
  else a ++ String sep b.

End OsPath.
Import OsPath.

(** ** The script's constants *)

Definition extensiones : list string :=
[".swift"; ".xib"; ".storyboard"; ".plist"; ".json"; ".md"].

Definition excluir_directorios : list string :=
["Pods"; ".git"; "DerivedData"; "build"; ".build"].

Definition archivo_salida : string := "proyecto_swift.txt".

(** The condition of the list comprehension that rebuilds [dirs]:
<<
  d not in excluir_directorios
  and not d.startswith('.')
  and 'test' not in d.lower()
>> *)
Definition conservar (d : string) : bool :=
  negb (mem d excluir_directorios)
  && negb (startswith d ".")
  && negb (contains "test" (lower d)).

(** [os.path.splitext(file)[1] in extensiones] *)
Definition seleccionado (file : string) : bool :=
  mem (snd (splitext file)) extensiones.

(** ** The file system

    A node is a file, a directory or a symbolic link to a directory; a
    directory is the list of its named entries in the order [os.scandir]
    returns them.  A file carries what opening and reading it gives at
    the level of the system: its bytes, or the message [str(e)] of the
    exception raised.  A symbolic link to a file is a [File] (opening it
    reads the target). *)

Inductive lectura : Type :=
| Leido (contenido : string)
| Fallo (mensaje : string).

#[warnings="-register-all"]
Inductive node : Type :=
| File (r : lectura)
| Dir (entries : list (string * node))
| DirLink.

Definition listing : Type := list (string * node).

(** [entry.is_dir()], which follows symbolic links. *)
Definition is_dir (n : node) : bool :=
  match n with
  | Dir _ => true
  | DirLink => true
  | File _ => false
  end.

(** The two lists [os.walk] builds from a directory scan: the names with
    [entry.is_dir()] and the others. *)
Definition dirnames (es : listing) : list string :=
  map fst (filter (fun e => is_dir (snd e)) es).

Definition filenames (es : listing) : list string :=
  map fst (filter (fun e => negb (is_dir (snd e))) es).

(** Resolving a name inside a directory, as opening or scanning
    [join(top, name)] does. *)
Fixpoint lookup (name : string) (es : listing) : option node :=
  match es with
  | [] => None
  | (n, c) :: es' => if n =? name then Some c else lookup name es'
  end.

(** ** Effects

    The script never reads back what it wrote, so a run is described by
    the sequence of its system calls and by how it ends. *)

Inductive event : Type :=
| EvOpenWrite (ruta : string)
| EvScandir (ruta : string)
| EvOpenRead (ruta : string)
| EvFoutWrite (datos : string).

Inductive outcome (A : Type) : Type :=
| Returns (a : A)
| Raises (mensaje : string).

Arguments Returns {A} a.
Arguments Raises {A} mensaje.

Definition M (A : Type) : Type := (list event * outcome A)%type.

Definition ret {A} (a : A) : M A := ([], Returns a).

Definition bind {A B} (m : M A) (k : A -> M B) : M B :=
  match m with
  | (t, Returns a) => let (t', r) := k a in ((t ++ t')%list, r)
  | (t, Raises e) => (t, Raises e)
  end.

Definition emit (e : event) : M unit := ([e], Returns tt).

Definition raise {A} (mensaje : string) : M A := ([], Raises mensaje).

(** [try: m  except Exception as e: h e] *)
Definition try_except {A} (m : M A) (h : string -> M A) : M A :=
  match m with
  | (t, Raises e) => let (t', r) := h e in ((t ++ t')%list, r)
  | (t, Returns a) => (t, Returns a)
  end.

Notation "x <- m ;; k" := (bind m (fun x => k))
  (at level 61, m at next level, right associativity).
Notation "m ;; k" := (bind m (fun _ => k))
  (at level 61, right associativity).

(** [for x in l: f x] *)
Fixpoint for_each {A} (l : list A) (f : A -> M unit) : M unit :=
  match l with
  | [] => ret tt
  | x :: l' => f x ;; for_each l' f
  end.

(** What a run has written into [fout]. *)
Fixpoint written (t : list event) : string :=
  match t with
  | [] => EmptyString
  | EvFoutWrite s :: t' => s ++ written t'
  | _ :: t' => written t'
  end.

(** ** os.walk

    [os.walk(top)] scans [top], yields [(top, dirs, nondirs)] and, once
    the consumer's loop body has run, enters [join(top, dirname)] for each
    [dirname] of the list object [dirs] as the body left it.  The body is
    therefore a computation that returns the final contents of [dirs].
    A name that is a symbolic link is not entered ([followlinks] is
    false and [islink(new_path)] holds), and a path that cannot be
    scanned (it is not a directory, or the name no longer resolves) is
    skipped without a yield. *)

Section Walk.

Variable body : listing -> string -> list string -> list string -> M (list string).

Fixpoint os_walk (n : node) (top : string) {struct n} : M unit :=
  match n with
  | File _ => ret tt
  | DirLink => ret tt
  | Dir es =>
      emit (EvScandir top) ;;
      dirs <- body es top (dirnames es) (filenames es) ;;
      for_each dirs (fun dirname =>
        (fix enter (l : listing) : M unit :=
           match l with
           | [] => ret tt
           | (name, child) :: l' =>
               if name =? dirname then os_walk child (join top dirname)
               else enter l'
           end) es)
  end.

End Walk.

(** ** The script *)

(** The header written before each selected file. *)
Definition cabecera (ruta : string) : string :=
  nl ++ nl ++ "===== " ++ ruta ++ " =====" ++ nl.

(** The text written when reading fails. *)
Definition anotacion (ruta e : string) : string :=
  "[Error leyendo " ++ ruta ++ ": " ++ e ++ "]" ++ nl.

(** [fout.write(datos)]: [fout] encodes with [encoding='utf-8'], so the
    write raises [UnicodeEncodeError] when [datos] holds a lone
    surrogate, and then nothing of [datos] is written. *)
Definition fout_write (datos : string) : M unit :=
  if utf8_valid datos then emit (EvFoutWrite datos)
  else raise "'utf-8' codec can't encode characters: surrogates not allowed".

(** [with open(ruta, 'r', ...) as fin: fin.read()] for a file of the
    directory being visited. *)
Definition fin_read (es : listing) (ruta file : string) : M string :=
  emit (EvOpenRead ruta) ;;
  match lookup file es with
  | Some (File (Leido contenido)) => ret (read_text contenido)
  | Some (File (Fallo mensaje)) => raise mensaje
  | Some _ => raise ("[Errno 21] Is a directory: '" ++ ruta ++ "'")
  | None => raise ("[Errno 2] No such file or directory: '" ++ ruta ++ "'")
  end.

(** The body of [for file in files].  The write of the header stands
    before the [try], so an exception it raises leaves the loop.  In the
    handler, [ruta] has just been encoded by the header and [str(e)]
    shows a file name through [repr], which escapes surrogates: the
    write of the note encodes. *)
Definition procesar (es : listing) (root file : string) : M unit :=
  if seleccionado file then
    let ruta := join root file in
    fout_write (cabecera ruta) ;;
    try_except
      (contenido <- fin_read es ruta file ;; fout_write contenido)
      (fun e => emit (EvFoutWrite (anotacion ruta e)))
  else ret tt.

(** The body of [for root, dirs, files in os.walk('.')]; the value
    returned is the contents of [dirs] after [dirs[:] = [...]]. *)
Definition loop_body (es : listing) (root : string) (dirs files : list string)
  : M (list string) :=
  let dirs := filter conservar dirs in
  for_each files (procesar es root) ;;
  ret dirs.

(** The walk of the tree whose root directory lists [fs]. *)
Definition exportar (fs : listing) : M unit := os_walk loop_body (Dir fs) ".".

Definition documento (fs : listing) : string := written (fst (exportar fs)).

(** [open(archivo_salida, 'w')] in the root: an existing file is
    truncated where it stands, a missing one is created (it is listed
    last here; where a new name appears in a scan is up to the file
    system), and a directory of that name, or a link to one, cannot be
    opened. *)
Fixpoint crear (name : string) (fs : listing) : option listing :=
  match fs with
  | [] => Some [(name, File (Leido EmptyString))]
  | (n, c) :: fs' =>
      if n =? name then
        match c with
        | File _ => Some ((n, File (Leido EmptyString)) :: fs')
        | _ => None
        end
      else option_map (cons (n, c)) (crear name fs')
  end.

(** The contents of the output file once [fout] is closed. *)
Fixpoint guardar (name texto : string) (fs : listing) : listing :=
  match fs with
  | [] => []
  | (n, c) :: fs' =>
      if n =? name then (n, File (Leido texto)) :: fs'
      else (n, c) :: guardar name texto fs'
  end.

(** The whole script, run in a directory that lists [fs]: the events of
    the run and, when it ends normally, the directory it leaves behind. *)
Definition programa (fs : listing) : M listing :=
  match crear archivo_salida fs with
  | None =>
      ([EvOpenWrite archivo_salida],
       Raises ("[Errno 21] Is a directory: '" ++ archivo_salida ++ "'"))
  | Some fs1 =>
      let (t, r) := exportar fs1 in
      (EvOpenWrite archivo_salida :: t,
       match r with
       | Returns _ => Returns (guardar archivo_salida (written t) fs1)
       | Raises e => Raises e
       end)
  end.

(** The directory a run leaves behind whether it returns or raises:
    leaving the [with] block closes [fout], so the output file holds
    what was written until then; when the file cannot be created the
    directory is as it was. *)
Definition deja (fs : listing) : listing :=
  match crear archivo_salida fs with
  | None => fs
  | Some fs1 => guardar archivo_salida (written (fst (exportar fs1))) fs1
  end.

(** The tree of the scenario: [a.py], [b.md] holding [hello], and
    [test_data/c.md]. *)
Definition escenario : listing :=
  [("a.py", File (Leido "print(1)"));
   ("b.md", File (Leido "hello"));
   ("test_data", Dir [("c.md", File (Leido "secret"))])].

(** ** Notions used to state the properties *)

(** The strings of a list put end to end. *)
Definition concat_all (l : list string) : string :=
  fold_right append EmptyString l.

(** Entering the directory [dirname] of a directory listing [es] visited
    at [top]: what [os.walk] does for one name left in [dirs]. *)
Definition entrar (es : listing) (top dirname : string) : M unit :=
  match lookup dirname es with
  | Some child => os_walk loop_body child (join top dirname)
  | None => ret tt
  end.

(** The bytes one file of a visited directory adds to the document. *)
Definition registro (es : listing) (root file : string) : string :=
  written (fst (procesar es root file)).

(** The paths a run opened for reading and the directories it scanned,
    in order. *)
Fixpoint abiertos (t : list event) : list string :=
  match t with
  | [] => []
  | EvOpenRead p :: t' => p :: abiertos t'
  | _ :: t' => abiertos t'
  end.

Fixpoint escaneados (t : list event) : list string :=
  match t with
  | [] => []
  | EvScandir p :: t' => p :: escaneados t'
  | _ :: t' => escaneados t'
  end.

(** A directory name that the exclusion rules name: it is one of
    [excluir_directorios], or it begins with a dot, or some part of it
    reads [test] when case is ignored. *)
Definition excluido (d : string) : Prop :=
  In d excluir_directorios
  \/ (exists r, d = String "." r)
  \/ (exists pre w post, d = pre ++ w ++ post /\ lower w = "test").

(** Two listings that agree except for what lies inside directories with
    an excluded name, at any depth. *)
Inductive difieren_en_excluidos : listing -> listing -> Prop :=
| dif_nil : difieren_en_excluidos [] []
| dif_file n r es es' :
    difieren_en_excluidos es es' ->
    difieren_en_excluidos ((n, File r) :: es) ((n, File r) :: es')
| dif_dir n sub sub' es es' :
    difieren_en_excluidos sub sub' ->
    difieren_en_excluidos es es' ->
    difieren_en_excluidos ((n, Dir sub) :: es) ((n, Dir sub') :: es')
| dif_excluido n sub sub' es es' :
    excluido n ->
    difieren_en_excluidos es es' ->
    difieren_en_excluidos ((n, Dir sub) :: es) ((n, Dir sub') :: es')
| dif_link n es es' :
    difieren_en_excluidos es es' ->
    difieren_en_excluidos ((n, DirLink) :: es) ((n, DirLink) :: es').

(** [alcanza es top es' top']: from the directory [es] at path [top],
    descending only through sub-directories whose name is not excluded
    leads to the directory [es'] at path [top']. *)
Inductive alcanza : listing -> string -> listing -> string -> Prop :=
| alc_aqui es top : alcanza es top es top
| alc_baja es top d sub es' top' :
    In (d, Dir sub) es ->
    ~ excluido d ->
    alcanza sub (join top d) es' top' ->
    alcanza es top es' top'.

(** Names as a directory scan returns them: not empty, without [/], and
    distinct within one directory. *)
Definition nombre_valido (n : string) : Prop :=
  n <> EmptyString /\ ~ occurs sep n.

Inductive bien_formado : listing -> Prop :=
| bf_nil : bien_formado []
| bf_file n r es :
    nombre_valido n -> ~ In n (map fst es) -> bien_formado es ->
    bien_formado ((n, File r) :: es)
| bf_dir n sub es :
    nombre_valido n -> ~ In n (map fst es) ->
    bien_formado sub -> bien_formado es ->
    bien_formado ((n, Dir sub) :: es)
| bf_link n es :
    nombre_valido n -> ~ In n (map fst es) -> bien_formado es ->
    bien_formado ((n, DirLink) :: es).

(** Two readings of "the substring after the last separator character
    within the name": the text after the last dot, and the text from the
    last dot on. *)
Definition tras_ultimo_punto (name : string) : string :=
  let i := rfind name extsep in
  if (i <? 0)%Z then EmptyString else drop (Z.to_nat i + 1) name.

Definition desde_ultimo_punto (name : string) : string :=
  let i := rfind name extsep in
  if (i <? 0)%Z then EmptyString else drop (Z.to_nat i) name.

(** A record for [file] is written while the directory [es] is visited
    at [root]. *)
Definition emite (es : listing) (root file : string) : Prop :=
  In (EvFoutWrite (cabecera (join root file))) (fst (procesar es root file)).

(** The listing without the entries called [name]. *)
Definition sin (name : string) (fs : listing) : listing :=
  filter (fun e => negb (fst e =? name)) fs.

(** An event that creates or truncates a file. *)
Definition abre_para_escribir (e : event) : option string :=
  match e with
  | EvOpenWrite p => Some p
  | _ => None
  end.

(** A path as [os.walk] passes it on: not empty, with no [/] at its
    end. *)
Definition ruta_normal (top : string) : Prop :=
  top <> EmptyString /\ endswith top sep = false.

Definition bien_formado_nodo (n : node) : Prop :=
  match n with
  | Dir es => bien_formado es
  | _ => True
  end.

(** [p] lies below the directory [top]. *)
Definition bajo (top p : string) : Prop :=
  exists r, p = top ++ String sep r.

(** The extension in words: the name from its last dot on, when some
    character before that dot is not a dot; nothing otherwise. *)
Fixpoint hay_no_punto (s : string) : bool :=
  match s with
  | EmptyString => false
  | String a s' => negb (Ascii.eqb a extsep) || hay_no_punto s'
  end.

Definition extension_por_puntos (name : string) : string :=
  let i := rfind name extsep in
  if (0 <=? i)%Z && hay_no_punto (take (Z.to_nat i) name)
  then drop (Z.to_nat i) name
  else EmptyString.

(** A directory with a file named [.md] and a file named [b.md]. *)
Definition con_punto_inicial : listing :=
  [(".md", File (Leido "hidden")); ("b.md", File (Leido "hello"))].

(** A project with excluded directories at two depths, and the same
    project with those directories emptied. *)
Definition proyecto : listing :=
  [(".git", Dir [("config.json", File (Leido "{}"))]);
   ("Sources",
    Dir [("AppTests", Dir [("t.swift", File (Leido "XCTAssert(true)"))]);
         ("a.swift", File (Leido "let a = 1"))]);
   ("Pods", Dir [("p.swift", File (Fallo "[Errno 5] Input/output error"))])].

Definition proyecto_podado : listing :=
  [(".git", Dir []);
   ("Sources",
    Dir [("AppTests", Dir []);
         ("a.swift", File (Leido "let a = 1"))]);
   ("Pods", Dir [])].

(** What follows the header in the record of a file, by the outcome of
    its read. *)
Definition cuerpo_de (ruta : string) (r : lectura) : string :=
  match r with
  | Leido contenido => read_text contenido
  | Fallo mensaje => anotacion ruta mensaje
  end.

(** Every name of the tree is well-formed UTF-8: the names a [str]
    without surrogates stands for. *)
Inductive nombres_utf8 : listing -> Prop :=
| nu_nil : nombres_utf8 []
| nu_file n r es :
    utf8_valid n = true -> nombres_utf8 es ->
    nombres_utf8 ((n, File r) :: es)
| nu_dir n sub es :
    utf8_valid n = true -> nombres_utf8 sub -> nombres_utf8 es ->
    nombres_utf8 ((n, Dir sub) :: es)
| nu_link n es :
    utf8_valid n = true -> nombres_utf8 es ->
    nombres_utf8 ((n, DirLink) :: es).

Definition nombres_utf8_nodo (n : node) : Prop :=
  match n with
  | Dir es => nombres_utf8 es
  | _ => True
  end.

(** The records of a run, in order: the path of each file opened right
    after the write of its header, with the body written next. *)
Fixpoint registros (t : list event) : list (string * string) :=
  match t with
  | [] => []
  | EvFoutWrite h :: t1 =>
      match t1 with
      | EvOpenRead p :: EvFoutWrite c :: t3 =>
          if h =? cabecera p then (p, c) :: registros t3 else registros t1
      | _ => registros t1
      end
  | _ :: t1 => registros t1
  end.

(** A record as it stands in the document. *)
Definition texto_de_registro (r : string * string) : string :=
  nl ++ nl ++ "===== " ++ fst r ++ " =====" ++ nl ++ snd r.

(** A file with Windows line ends, and a file whose name is Latin-1
    ([caf] followed by the byte [E9]), which is not UTF-8. *)
Definition con_crlf : listing :=
  [("a.md", File (Leido ("x" ++ String CR (String LF "y"))))].

Definition nombre_latin1 : string :=
  "caf" ++ String (ascii_of_nat 233) ".md".

Definition con_nombre_latin1 : listing :=
  [(nombre_latin1, File (Leido "hola")); ("b.md", File (Leido "hello"))].

(** A run made of directory scans and of whole records only: each record
    is the write of a header, the opening of the path the header names
    and one write of a body. *)
Inductive en_registros : list event -> Prop :=
| er_nil : en_registros []
| er_scan p t : en_registros t -> en_registros (EvScandir p :: t)
| er_registro p cuerpo t :
    en_registros t ->
    en_registros (EvFoutWrite (cabecera p) :: EvOpenRead p
                    :: EvFoutWrite cuerpo :: t).

(** The exclusion set without its two names that begin with a dot. *)
Definition excluir_sin_punto : list string := ["Pods"; "DerivedData"; "build"].

(** The same tree up to the order in which each directory lists its
    entries. *)
#[warnings="-register-all"]
Inductive reordenado : node -> node -> Prop :=
| reo_file r : reordenado (File r) (File r)
| reo_dir es es1 es' :
    Forall2 (fun a b => fst a = fst b /\ reordenado (snd a) (snd b)) es es1 ->
    Permutation es1 es' ->
    reordenado (Dir es) (Dir es')
| reo_link : reordenado DirLink DirLink.

(** The project of [proyecto] as another file system could list it. *)
Definition proyecto_reordenado : listing :=
  [("Sources",
    Dir [("a.swift", File (Leido "let a = 1"));
         ("AppTests", Dir [("t.swift", File (Leido "XCTAssert(true)"))])]);
   (".git", Dir [("config.json", File (Leido "{}"))]);
   ("Pods", Dir [("p.swift", File (Fallo "[Errno 5] Input/output error"))])].

(** A project with a link to a directory beside its sources. *)
Definition con_enlace : listing :=
  [("Sources", Dir [("a.swift", File (Leido "let a = 1"))]);
   ("Vendor", DirLink)].

(** A directory whose one file cannot be read. *)
Definition con_fallo : listing :=
  [("locked.json",
    File (Fallo "[Errno 13] Permission denied: './locked.json'"))].

(** * Properties *)

Unset Implicit Arguments.

(** ** Strings *)

Lemma append_assoc (a b c : string) : (a ++ b) ++ c = a ++ (b ++ c).
Proof. induction a as [|x a IH]; simpl; [reflexivity | now rewrite IH]. Qed.

Lemma append_empty_r (a : string) : a ++ EmptyString = a.
Proof. induction a as [|x a IH]; simpl; [reflexivity | now rewrite IH]. Qed.

Lemma append_cancel_l (a x y : string) : a ++ x = a ++ y -> x = y.
Proof.
  induction a as [|c a IH]; simpl; intros H; [assumption|].
  injection H as H. auto.
Qed.

Lemma occurs_append (c : ascii) (a b : string) :
  occurs c (a ++ b) <-> occurs c a \/ occurs c b.
Proof.
  induction a as [|x a IH]; simpl.
  - tauto.
  - rewrite IH. tauto.
Qed.

Lemma prefix_append (t s : string) : String.prefix t (t ++ s) = true.
Proof.
  induction t as [|c t IH]; simpl.
  - now destruct s.
  - destruct (ascii_dec c c) as [_|N]; [exact IH | now elim N].
Qed.

Lemma prefix_split (t s : string) :
  String.prefix t s = true -> exists post, s = t ++ post.
Proof.
  revert s. induction t as [|c t IH]; intros s H.
  - exists s. reflexivity.
  - destruct s as [|c' s]; simpl in H; [discriminate|].
    destruct (ascii_dec c c') as [->|_]; [|discriminate].
    destruct (IH _ H) as [post ->]. now exists post.
Qed.

Lemma contains_prefix (t s : string) :
  String.prefix t s = true -> contains t s = true.
Proof. intros H. destruct s; cbn [contains]; now rewrite H. Qed.

Lemma contains_append (t pre post : string) :
  contains t (pre ++ t ++ post) = true.
Proof.
  induction pre as [|c pre IH].
  - change (EmptyString ++ t ++ post) with (t ++ post).
    apply contains_prefix, prefix_append.
  - simpl append. cbn [contains].
    destruct (String.prefix t (String c (pre ++ t ++ post))); [reflexivity | exact IH].
Qed.

Lemma contains_split (t s : string) :
  contains t s = true -> exists pre post, s = pre ++ t ++ post.
Proof.
  induction s as [|c s IH]; cbn [contains]; intros H.
  - destruct (String.prefix t EmptyString) eqn:E; [|discriminate].
    destruct (prefix_split _ _ E) as [post ->].
    exists EmptyString, post. reflexivity.
  - destruct (String.prefix t (String c s)) eqn:E.
    + destruct (prefix_split _ _ E) as [post ->].
      exists EmptyString, post. reflexivity.
    + destruct (IH H) as (pre & post & ->).
      exists (String c pre), post. reflexivity.
Qed.

Lemma lower_append (a b : string) : lower (a ++ b) = lower a ++ lower b.
Proof. induction a as [|x a IH]; simpl; [reflexivity | now rewrite IH]. Qed.

Lemma lower_append_inv (s a b : string) :
  lower s = a ++ b -> exists a' b', s = a' ++ b' /\ lower a' = a /\ lower b' = b.
Proof.
  revert s. induction a as [|x a IH]; intros s H.
  - exists EmptyString, s. auto.
  - destruct s as [|y s]; simpl in H; [discriminate|].
    injection H as Hx H.
    destruct (IH _ H) as (a' & b' & -> & Ha & Hb).
    exists (String y a'), b'. simpl. rewrite Ha, Hx. auto.
Qed.

Lemma mem_In (x : string) (S : list string) : mem x S = true <-> In x S.
Proof.
  unfold mem. rewrite existsb_exists. split.
  - intros (y & Hy & E). apply String.eqb_eq in E. now subst.
  - intros H. exists x. split; [assumption | apply String.eqb_refl].
Qed.

(** The filter of the walk rejects exactly the excluded names. *)
Lemma conservar_excluido (d : string) : conservar d = false <-> excluido d.
Proof.
  unfold conservar, excluido. split.
  - intros H.
    destruct (mem d excluir_directorios) eqn:E1.
    { left. now apply mem_In. }
    destruct (startswith d ".") eqn:E2.
    { right; left. destruct (prefix_split _ _ E2) as [post ->]. now exists post. }
    destruct (contains "test" (lower d)) eqn:E3; [|discriminate].
    right; right.
    destruct (contains_split _ _ E3) as (pre & post & E).
    destruct (lower_append_inv _ _ _ E) as (pre' & r & -> & _ & Hr).
    destruct (lower_append_inv _ _ _ Hr) as (w & post' & -> & Hw & _).
    now exists pre', w, post'.
  - intros [H | [[r ->] | (pre & w & post & -> & Hw)]].
    + apply mem_In in H. now rewrite H.
    + assert (startswith (String "." r) "." = true) as ->
        by (unfold startswith; now destruct r).
      destruct (mem _ _); reflexivity.
    + rewrite !lower_append, Hw, contains_append.
      destruct (mem _ _), (startswith _ _); reflexivity.
Qed.

Lemma conservar_no_excluido (d : string) : conservar d = true <-> ~ excluido d.
Proof.
  rewrite <- conservar_excluido. destruct (conservar d); split; congruence.
Qed.

(** ** The UTF-8 codec *)

Lemma string_length_ind (P : string -> Prop) :
  (forall s, (forall t, String.length t < String.length s -> P t) -> P s) ->
  forall s, P s.
Proof.
  intros H s.
  assert (K : forall n t, String.length t < n -> P t).
  { induction n as [|n IH]; intros t L; [lia|].
    apply H. intros u Lu. apply IH. lia. }
  apply H. intros t L. exact (K _ _ L).
Qed.

Lemma lead_is_cont (c : ascii) : lead c = 1 -> is_cont c = false.
Proof.
  unfold lead, is_cont.
  destruct (Nat.ltb_spec (byte c) 128) as [L | L].
  - intros _. destruct (Nat.leb_spec 128 (byte c)); [lia | reflexivity].
  - destruct (byte c <? 194)%nat; [discriminate|].
    destruct (byte c <? 224)%nat; [discriminate|].
    destruct (byte c <? 240)%nat; [discriminate|].
    destruct (byte c <? 245)%nat; discriminate.
Qed.

Lemma is_cont_lead (c : ascii) : is_cont c = true -> lead c = 0.
Proof.
  unfold lead, is_cont. intros H. apply andb_prop in H as [H1 H2].
  apply Nat.leb_le in H1, H2.
  destruct (Nat.ltb_spec (byte c) 128); [lia|].
  destruct (Nat.ltb_spec (byte c) 194); [reflexivity | lia].
Qed.

Lemma second3_is_cont (a b : ascii) : second3 a b = true -> is_cont b = true.
Proof. unfold second3. intros H. now apply andb_prop in H. Qed.

Lemma second4_is_cont (a b : ascii) : second4 a b = true -> is_cont b = true.
Proof. unfold second4. intros H. now apply andb_prop in H. Qed.

Lemma no_CR (a : ascii) : lead a <> 1 -> Ascii.eqb a CR = false.
Proof.
  intros H. destruct (Ascii.eqb_spec a CR) as [-> | _]; [|reflexivity].
  now elim H.
Qed.

Lemma is_cont_no_CR (b : ascii) : is_cont b = true -> Ascii.eqb b CR = false.
Proof. intros H. apply no_CR. now rewrite (is_cont_lead _ H). Qed.

Ltac por_longitud IH :=
  apply IH; first [cbn [String.length]; lia | assumption].

(** What [errors='ignore'] returns is well-formed. *)
Lemma decode_ignore_valid (s : string) : utf8_valid (decode_ignore s) = true.
Proof.
  induction s as [s IH] using string_length_ind.
  destruct s as [|a s1]; [reflexivity|].
  cbn [decode_ignore].
  destruct (lead a) as [|[|[|[|[|k]]]]] eqn:E; try por_longitud IH.
  - cbn [utf8_valid]. rewrite E. por_longitud IH.
  - destruct s1 as [|b s2]; [reflexivity|].
    destruct (is_cont b) eqn:Eb; [|por_longitud IH].
    cbn [utf8_valid]. rewrite E, Eb. por_longitud IH.
  - destruct s1 as [|b s2]; [reflexivity|].
    destruct (second3 a b) eqn:Eb; [|por_longitud IH].
    destruct s2 as [|c s3]; [reflexivity|].
    destruct (is_cont c) eqn:Ec; [|por_longitud IH].
    cbn [utf8_valid]. rewrite E, Eb, Ec. por_longitud IH.
  - destruct s1 as [|b s2]; [reflexivity|].
    destruct (second4 a b) eqn:Eb; [|por_longitud IH].
    destruct s2 as [|c s3]; [reflexivity|].
    destruct (is_cont c) eqn:Ec; [|por_longitud IH].
    destruct s3 as [|d s4]; [reflexivity|].
    destruct (is_cont d) eqn:Ed; [|por_longitud IH].
    cbn [utf8_valid]. rewrite E, Eb, Ec, Ed. por_longitud IH.
Qed.

(** Well-formed bytes are decoded as they are. *)
Lemma decode_ignore_id (s : string) :
  utf8_valid s = true -> decode_ignore s = s.
Proof.
  induction s as [s IH] using string_length_ind.
  destruct s as [|a s1]; [reflexivity|].
  cbn [decode_ignore utf8_valid].
  destruct (lead a) as [|[|[|[|[|k]]]]] eqn:E; try discriminate.
  - intros V. f_equal. por_longitud IH.
  - destruct s1 as [|b s2]; [discriminate|]. intros V.
    apply andb_prop in V as [-> V]. do 2 f_equal. por_longitud IH.
  - destruct s1 as [|b [|c s3]]; try discriminate. intros V.
    apply andb_prop in V as [V V3]. apply andb_prop in V as [-> ->].
    do 3 f_equal. por_longitud IH.
  - destruct s1 as [|b [|c [|d s4]]]; try discriminate. intros V.
    apply andb_prop in V as [V V4]. apply andb_prop in V as [V ->].
    apply andb_prop in V as [-> ->].
    do 4 f_equal. por_longitud IH.
Qed.

Lemma universal_newlines_cont (b : ascii) (s : string) :
  is_cont b = true ->
  universal_newlines (String b s) = String b (universal_newlines s).
Proof.
  intros H. cbn [universal_newlines]. now rewrite (is_cont_no_CR _ H).
Qed.

(** The newline translation keeps a text well-formed. *)
Lemma universal_newlines_valid (s : string) :
  utf8_valid s = true -> utf8_valid (universal_newlines s) = true.
Proof.
  induction s as [s IH] using string_length_ind.
  destruct s as [|a s1]; [reflexivity|].
  intros V. cbn [universal_newlines].
  destruct (Ascii.eqb_spec a CR) as [-> | N].
  - change (utf8_valid (String CR s1)) with (utf8_valid s1) in V.
    destruct s1 as [|b s2]; [reflexivity|].
    destruct (Ascii.eqb_spec b LF) as [-> | _].
    + change (utf8_valid (String LF (universal_newlines s2)))
        with (utf8_valid (universal_newlines s2)).
      change (utf8_valid (String LF s2)) with (utf8_valid s2) in V.
      por_longitud IH.
    + change (utf8_valid (String LF (universal_newlines (String b s2))))
        with (utf8_valid (universal_newlines (String b s2))).
      por_longitud IH.
  - cbn [utf8_valid] in *.
    destruct (lead a) as [|[|[|[|[|k]]]]] eqn:E; try discriminate.
    + por_longitud IH.
    + destruct s1 as [|b s2]; [discriminate|].
      apply andb_prop in V as [Vb V].
      rewrite (universal_newlines_cont _ _ Vb), Vb. por_longitud IH.
    + destruct s1 as [|b [|c s3]]; try discriminate.
      apply andb_prop in V as [V V3]. apply andb_prop in V as [Vb Vc].
      rewrite (universal_newlines_cont _ _ (second3_is_cont _ _ Vb)).
      rewrite (universal_newlines_cont _ _ Vc), Vb, Vc. por_longitud IH.
    + destruct s1 as [|b [|c [|d s4]]]; try discriminate.
      apply andb_prop in V as [V V4]. apply andb_prop in V as [V Vd].
      apply andb_prop in V as [Vb Vc].
      rewrite (universal_newlines_cont _ _ (second4_is_cont _ _ Vb)).
      rewrite (universal_newlines_cont _ _ Vc).
      rewrite (universal_newlines_cont _ _ Vd), Vb, Vc, Vd. por_longitud IH.
Qed.

Lemma universal_newlines_id (s : string) :
  ~ occurs CR s -> universal_newlines s = s.
Proof.
  induction s as [|a s IH]; [reflexivity|].
  cbn [occurs universal_newlines]. intros H.
  destruct (Ascii.eqb_spec a CR) as [-> | _]; [tauto|].
  f_equal. apply IH. tauto.
Qed.

(** What [read()] returns always encodes. *)
Lemma read_text_valid (contenido : string) :
  utf8_valid (read_text contenido) = true.
Proof. apply universal_newlines_valid, decode_ignore_valid. Qed.

Lemma read_text_id (contenido : string) :
  utf8_valid contenido = true -> ~ occurs CR contenido ->
  read_text contenido = contenido.
Proof.
  intros V H. unfold read_text. rewrite (decode_ignore_id _ V).
  now apply universal_newlines_id.
Qed.

Lemma utf8_valid_app (a b : string) :
  utf8_valid a = true -> utf8_valid b = true -> utf8_valid (a ++ b) = true.
Proof.
  intros Va Vb. revert Va.
  induction a as [a IH] using string_length_ind.
  destruct a as [|x s1]; [trivial|].
  cbn [append utf8_valid].
  destruct (lead x) as [|[|[|[|[|k]]]]] eqn:E; try discriminate.
  - por_longitud IH.
  - destruct s1 as [|y s2]; [discriminate|]. cbn [append].
    intros V. apply andb_prop in V as [-> V]. por_longitud IH.
  - destruct s1 as [|y [|z s3]]; try discriminate. cbn [append].
    intros V. apply andb_prop in V as [-> V]. por_longitud IH.
  - destruct s1 as [|y [|z [|w s4]]]; try discriminate. cbn [append].
    intros V. apply andb_prop in V as [-> V]. por_longitud IH.
Qed.

(** Before an ASCII character, only the bytes that come first decide. *)
Lemma utf8_valid_app_ascii (s : string) (c : ascii) (t : string) :
  lead c = 1 -> utf8_valid t = true ->
  utf8_valid (s ++ String c t) = utf8_valid s.
Proof.
  intros Lc Vt. pose proof (lead_is_cont _ Lc) as Nc.
  assert (N3 : forall a, second3 a c = false)
    by (intros a; unfold second3; now rewrite Nc).
  assert (N4 : forall a, second4 a c = false)
    by (intros a; unfold second4; now rewrite Nc).
  induction s as [s IH] using string_length_ind.
  destruct s as [|x s1].
  - cbn [append utf8_valid]. now rewrite Lc.
  - cbn [append utf8_valid].
    destruct (lead x) as [|[|[|[|[|k]]]]] eqn:E; try reflexivity.
    + por_longitud IH.
    + destruct s1 as [|y s2]; cbn [append].
      * now rewrite Nc.
      * f_equal. por_longitud IH.
    + destruct s1 as [|y [|z s3]]; cbn [append].
      * rewrite N3. now destruct t.
      * now rewrite Nc, andb_false_r.
      * f_equal. por_longitud IH.
    + destruct s1 as [|y [|z [|w s4]]]; cbn [append].
      * rewrite N4. now destruct t as [|? [|? ?]].
      * rewrite Nc, andb_false_r. now destruct t.
      * now rewrite Nc, andb_false_r.
      * f_equal. por_longitud IH.
Qed.

(** A header encodes exactly when its path does. *)
Lemma cabecera_valid (ruta : string) :
  utf8_valid (cabecera ruta) = utf8_valid ruta.
Proof.
  unfold cabecera. cbn -[utf8_valid append].
  change (utf8_valid (nl ++ nl ++ "===== " ++ ruta ++ " =====" ++ nl))
    with (utf8_valid (ruta ++ String " " ("=====" ++ nl))).
  now apply utf8_valid_app_ascii.
Qed.

Lemma utf8_valid_join (a b : string) :
  utf8_valid a = true -> utf8_valid b = true -> utf8_valid (join a b) = true.
Proof.
  intros Va Vb. unfold join. destruct (_ || _); [exact Vb|].
  destruct (endswith a sep).
  - now apply utf8_valid_app.
  - now apply utf8_valid_app.
Qed.

(** ** Runs *)

(** Induction over a tree: a property holds of a directory as soon as it
    holds of every node the directory lists. *)
Lemma node_tree_ind (P : node -> Prop) :
  (forall r, P (File r)) ->
  (forall es, (forall n c, In (n, c) es -> P c) -> P (Dir es)) ->
  P DirLink ->
  forall n, P n.
Proof.
  intros HF HD HL. fix IH 1. intros [r | es |].
  - apply HF.
  - apply HD. induction es as [|[n c] es IHes]; intros n' c' Hin.
    + destruct Hin.
    + destruct Hin as [E | Hin].
      * injection E as _ <-. apply IH.
      * exact (IHes _ _ Hin).
  - exact HL.
Qed.

Lemma lookup_In (name : string) (es : listing) (c : node) :
  lookup name es = Some c -> In (name, c) es.
Proof.
  induction es as [|[n c'] es IH]; simpl; [discriminate|].
  destruct (String.eqb_spec n name) as [-> | _].
  - intros [= ->]. now left.
  - intros H. right. auto.
Qed.

Lemma for_each_ext {A} (l : list A) (f g : A -> M unit) :
  (forall x, In x l -> f x = g x) -> for_each l f = for_each l g.
Proof.
  induction l as [|x l IH]; intros H; simpl; [reflexivity|].
  rewrite (H x) by now left.
  rewrite IH; [reflexivity|]. intros y Hy. apply H. now right.
Qed.

(** A loop whose body always returns runs the body on every element, in
    order, and returns. *)
Lemma for_each_returns {A} (l : list A) (f : A -> M unit) :
  (forall x, In x l -> snd (f x) = Returns tt) ->
  for_each l f = (flat_map (fun x => fst (f x)) l, Returns tt).
Proof.
  induction l as [|x l IH]; intros H; simpl; [reflexivity|].
  rewrite IH by (intros y Hy; apply H; now right).
  specialize (H x (or_introl eq_refl)).
  destruct (f x) as [t r]. simpl in *. now subst r.
Qed.

(** In general a loop runs its body on the first elements of the list,
    up to the one where the body raises. *)
Lemma for_each_firstn {A} (l : list A) (f : A -> M unit) :
  exists k, fst (for_each l f) = flat_map (fun x => fst (f x)) (firstn k l).
Proof.
  induction l as [|x l [k IH]]; [now exists 0|].
  cbn [for_each]. destruct (f x) as [t [[] | e]] eqn:E.
  - exists (S k). cbn [firstn flat_map bind]. rewrite E. cbn [fst].
    destruct (for_each l f) as [t' r]. cbn [fst] in *. now rewrite IH.
  - exists 1. cbn [firstn flat_map bind]. rewrite E. cbn [fst].
    now rewrite app_nil_r.
Qed.

Lemma for_each_raises {A} (l : list A) (f : A -> M unit) (x : A) :
  In x l -> (exists e, snd (f x) = Raises e) ->
  exists e, snd (for_each l f) = Raises e.
Proof.
  induction l as [|y l IH]; intros H R; [destruct H|].
  cbn [for_each]. destruct (f y) as [t [[] | e]] eqn:E.
  - destruct H as [-> | H].
    + rewrite E in R. destruct R as [e R]. discriminate R.
    + destruct (IH H R) as [e K]. exists e. cbn [bind].
      destruct (for_each l f) as [t' r]. cbn [snd] in *. exact K.
  - now exists e.
Qed.

Lemma In_firstn {A} (k : nat) (l : list A) (x : A) :
  In x (firstn k l) -> In x l.
Proof.
  revert l. induction k as [|k IH]; intros [|y l]; cbn; try tauto.
  intros [-> | H]; auto.
Qed.

(** [os.walk] enters each name left in [dirs] by resolving it in the
    directory it has just scanned. *)
Lemma os_walk_Dir body (es : listing) (top : string) :
  os_walk body (Dir es) top =
  (emit (EvScandir top) ;;
   dirs <- body es top (dirnames es) (filenames es) ;;
   for_each dirs (fun dirname =>
     match lookup dirname es with
     | Some child => os_walk body child (join top dirname)
     | None => ret tt
     end)).
Proof.
  cbn [os_walk emit bind].
  destruct (body es top (dirnames es) (filenames es)) as [t [dirs | e]];
    [|reflexivity].
  cbn [bind].
  match goal with
  | |- match match ?X with pair _ _ => _ end with pair _ _ => _ end
       = match match ?Y with pair _ _ => _ end with pair _ _ => _ end =>
      assert (E : X = Y); [|now rewrite E]
  end.
  apply for_each_ext. intros d _.
  induction es as [|[n c] es IH]; [reflexivity|].
  cbn [lookup]. now destruct (n =? d).
Qed.

(** The visit of a directory: the scan, the loop over the files, then
    the kept sub-directories. *)
Lemma os_walk_seq (es : listing) (top : string) :
  os_walk loop_body (Dir es) top =
  (emit (EvScandir top) ;;
   for_each (filenames es) (procesar es top) ;;
   for_each (filter conservar (dirnames es)) (entrar es top)).
Proof.
  rewrite os_walk_Dir.
  change (fun dirname => match lookup dirname es with
                         | Some child => os_walk loop_body child (join top dirname)
                         | None => ret tt
                         end) with (entrar es top).
  unfold loop_body.
  destruct (for_each (filenames es) (procesar es top)) as [t [[] | e]];
    cbn [bind ret emit]; rewrite ?app_nil_r; reflexivity.
Qed.

Lemma os_walk_partes (es : listing) (top : string) :
  exists k1 k2,
    fst (os_walk loop_body (Dir es) top)
    = (EvScandir top
         :: flat_map (fun f => fst (procesar es top f)) (firstn k1 (filenames es))
         ++ flat_map (fun d => fst (entrar es top d))
              (firstn k2 (filter conservar (dirnames es))))%list.
Proof.
  rewrite os_walk_seq.
  destruct (for_each_firstn (filenames es) (procesar es top)) as [k1 E1].
  destruct (for_each_firstn (filter conservar (dirnames es)) (entrar es top))
    as [k2 E2].
  destruct (for_each (filenames es) (procesar es top)) as [t1 [[] | e]];
    cbn [fst] in E1.
  - exists k1, k2. cbn [emit bind].
    destruct (for_each (filter conservar (dirnames es)) (entrar es top))
      as [t2 r2]. cbn [fst] in *. now rewrite E1, E2.
  - exists k1, 0. cbn [emit bind fst firstn flat_map].
    now rewrite E1, app_nil_r.
Qed.

Lemma written_app (t1 t2 : list event) :
  written (t1 ++ t2) = written t1 ++ written t2.
Proof.
  induction t1 as [|[p | p | p | s] t1 IH]; simpl; try assumption.
  - reflexivity.
  - now rewrite IH, append_assoc.
Qed.

Lemma written_flat_map {A} (f : A -> list event) (l : list A) :
  written (flat_map f l) = concat_all (map (fun x => written (f x)) l).
Proof.
  induction l as [|x l IH]; [reflexivity|].
  cbn [flat_map map concat_all fold_right]. rewrite written_app, IH. reflexivity.
Qed.

(** What [procesar] does, case by case. *)
Lemma procesar_no_seleccionado (es : listing) (root file : string) :
  seleccionado file = false -> procesar es root file = ret tt.
Proof. unfold procesar. now intros ->. Qed.

Lemma procesar_no_codificable (es : listing) (root file : string) :
  seleccionado file = true ->
  utf8_valid (join root file) = false ->
  procesar es root file
  = ([], Raises "'utf-8' codec can't encode characters: surrogates not allowed").
Proof.
  unfold procesar, fout_write. intros -> V. now rewrite cabecera_valid, V.
Qed.

Lemma procesar_seleccionado (es : listing) (root file : string) :
  seleccionado file = true ->
  utf8_valid (join root file) = true ->
  exists cuerpo,
    procesar es root file
    = ([EvFoutWrite (cabecera (join root file)); EvOpenRead (join root file);
        EvFoutWrite cuerpo], Returns tt)
    /\ (forall r, lookup file es = Some (File r) ->
        cuerpo = cuerpo_de (join root file) r)
    /\ (forall mensaje, snd (fin_read es (join root file) file) = Raises mensaje ->
        cuerpo = anotacion (join root file) mensaje).
Proof.
  intros S V. unfold procesar, fin_read, fout_write.
  rewrite S, cabecera_valid, V.
  destruct (lookup file es) as [[[contenido | m] | sub |] |];
    cbn [bind emit ret raise try_except app fst snd];
    try rewrite read_text_valid;
    cbn [bind emit ret raise try_except app fst snd];
    eexists; (split; [reflexivity|]); split; intros x E;
    try discriminate E; now injection E as <-.
Qed.

Lemma procesar_archivo (es : listing) (root file : string) (r : lectura) :
  seleccionado file = true ->
  utf8_valid (join root file) = true ->
  lookup file es = Some (File r) ->
  procesar es root file
  = ([EvFoutWrite (cabecera (join root file)); EvOpenRead (join root file);
      EvFoutWrite (cuerpo_de (join root file) r)], Returns tt).
Proof.
  intros S V L.
  destruct (procesar_seleccionado es root file S V) as (c & -> & H & _).
  now rewrite (H r L).
Qed.

Lemma procesar_casos (es : listing) (root file : string) :
  (seleccionado file = false /\ procesar es root file = ret tt)
  \/ (seleccionado file = true /\ utf8_valid (join root file) = false
      /\ exists e, procesar es root file = ([], Raises e))
  \/ (seleccionado file = true /\ utf8_valid (join root file) = true
      /\ exists cuerpo,
           procesar es root file
           = ([EvFoutWrite (cabecera (join root file));
               EvOpenRead (join root file);
               EvFoutWrite cuerpo], Returns tt)).
Proof.
  destruct (seleccionado file) eqn:S.
  - right. destruct (utf8_valid (join root file)) eqn:V.
    + right. destruct (procesar_seleccionado es root file S V) as (c & E & _).
      eauto.
    + left. rewrite (procesar_no_codificable es root file S V). eauto.
  - left. split; [reflexivity | now apply procesar_no_seleccionado].
Qed.

(** A property of runs that holds of the empty run, of a scan and of the
    visit of a file, and that goes through concatenation, holds of every
    walk. *)
Lemma os_walk_trace_prop (P : list event -> Prop) :
  P [] ->
  (forall a b, P a -> P b -> P (a ++ b)%list) ->
  (forall top, P [EvScandir top]) ->
  (forall es root f, P (fst (procesar es root f))) ->
  forall n top, P (fst (os_walk loop_body n top)).
Proof.
  intros P0 Papp Pscan Pfile.
  assert (Pflat : forall A (f : A -> list event) (l : list A) k,
             (forall x, In x l -> P (f x)) -> P (flat_map f (firstn k l))).
  { intros A f l k H.
    assert (K : forall x, In x (firstn k l) -> P (f x))
      by (intros x Hx; apply H; now apply In_firstn in Hx).
    induction (firstn k l) as [|x l' IH]; [exact P0|].
    cbn [flat_map]. apply Papp.
    - apply K. now left.
    - apply IH. intros y Hy. apply K. now right. }
  induction n as [r | es IH |] using node_tree_ind; intros top;
    [exact P0 | | exact P0].
  destruct (os_walk_partes es top) as (k1 & k2 & ->).
  apply (Papp [EvScandir top]); [apply Pscan|]. apply Papp.
  - apply Pflat. intros f _. apply Pfile.
  - apply Pflat. intros d _. unfold entrar.
    destruct (lookup d es) as [c|] eqn:E; [|exact P0].
    apply (IH _ _ (lookup_In _ _ _ E)).
Qed.

(** ** Runs over names that encode *)

Lemma nombres_utf8_In (es : listing) (n : string) (c : node) :
  nombres_utf8 es -> In (n, c) es ->
  utf8_valid n = true /\ nombres_utf8_nodo c.
Proof.
  induction 1 as [| n0 r es V _ IH | n0 sub es V Vs _ IH | n0 es V _ IH];
    intros H; [destruct H | | |];
    (destruct H as [E | H]; [injection E as <- <-; cbn; auto | auto]).
Qed.

Lemma nombres_utf8_intro (es : listing) :
  (forall n c, In (n, c) es -> utf8_valid n = true /\ nombres_utf8_nodo c) ->
  nombres_utf8 es.
Proof.
  induction es as [|[n c] es IH]; intros H; [constructor|].
  destruct (H n c (or_introl eq_refl)) as [V Vc].
  assert (K : nombres_utf8 es) by (apply IH; intros; apply H; now right).
  destruct c; constructor; auto.
Qed.

Lemma nombres_utf8_filenames (es : listing) (f : string) :
  nombres_utf8 es -> In f (filenames es) -> utf8_valid f = true.
Proof.
  intros N H. unfold filenames in H.
  apply in_map_iff in H as ([n c] & <- & H). apply filter_In in H as [H _].
  apply (@nombres_utf8_In _ _ _ N H).
Qed.

Lemma procesar_returns (es : listing) (root file : string) :
  utf8_valid (join root file) = true ->
  snd (procesar es root file) = Returns tt.
Proof.
  intros V.
  destruct (procesar_casos es root file)
    as [[_ ->] | [(_ & K & _) | (_ & _ & c & ->)]]; try reflexivity.
  congruence.
Qed.

(** Over names that encode, the walk returns whatever the reads give. *)
Lemma os_walk_returns (n : node) :
  forall top, nombres_utf8_nodo n -> utf8_valid top = true ->
  snd (os_walk loop_body n top) = Returns tt.
Proof.
  induction n as [r | es IH |] using node_tree_ind; intros top N V;
    try reflexivity.
  cbn in N. rewrite os_walk_seq.
  rewrite (for_each_returns (filenames es) (procesar es top)).
  - rewrite (for_each_returns (filter conservar (dirnames es)) (entrar es top));
      [reflexivity|].
    intros d _. unfold entrar.
    destruct (lookup d es) as [c|] eqn:E; [|reflexivity].
    apply lookup_In in E. destruct (@nombres_utf8_In _ _ _ N E) as [Vd Nc].
    apply (IH _ _ E); [exact Nc | now apply utf8_valid_join].
  - intros f Hf. apply procesar_returns, utf8_valid_join; [exact V|].
    now apply (nombres_utf8_filenames es f).
Qed.

Lemma entrar_returns (es : listing) (top d : string) :
  nombres_utf8 es -> utf8_valid top = true ->
  snd (entrar es top d) = Returns tt.
Proof.
  intros N V. unfold entrar.
  destruct (lookup d es) as [c|] eqn:E; [|reflexivity].
  apply lookup_In in E. destruct (@nombres_utf8_In _ _ _ N E) as [Vd Nc].
  apply os_walk_returns; [exact Nc | now apply utf8_valid_join].
Qed.

(** Over names that encode, the events of the visit of a directory are
    the scan, the files in the order of the listing, then the kept
    sub-directories in that order. *)
Lemma os_walk_trace (es : listing) (top : string) :
  nombres_utf8 es -> utf8_valid top = true ->
  os_walk loop_body (Dir es) top =
  (EvScandir top
     :: flat_map (fun f => fst (procesar es top f)) (filenames es)
     ++ flat_map (fun d => fst (entrar es top d)) (filter conservar (dirnames es)),
   Returns tt)%list.
Proof.
  intros N V. rewrite os_walk_seq.
  rewrite (for_each_returns (filenames es) (procesar es top)).
  - rewrite (for_each_returns (filter conservar (dirnames es)) (entrar es top));
      [reflexivity|].
    intros d _. now apply entrar_returns.
  - intros f Hf. apply procesar_returns, utf8_valid_join; [exact V|].
    now apply (nombres_utf8_filenames es f).
Qed.

(** ** The extension of a name *)

Lemma rfind_from_absent (c : ascii) (s : string) (i last : Z) :
  ~ occurs c s -> rfind_from c s i last = last.
Proof.
  revert i last. induction s as [|a s IH]; intros i last H; simpl; [reflexivity|].
  simpl in H. destruct (Ascii.eqb_spec a c) as [E | _]; [tauto|].
  apply IH. tauto.
Qed.

Lemma rfind_from_bound (c : ascii) (s : string) (i last : Z) :
  rfind_from c s i last = last \/ (i <= rfind_from c s i last)%Z.
Proof.
  revert i last. induction s as [|a s IH]; intros i last; simpl; [now left|].
  destruct (Ascii.eqb a c).
  - destruct (IH (i + 1)%Z i) as [-> | H]; right; lia.
  - destruct (IH (i + 1)%Z last) as [-> | H]; [now left | right; lia].
Qed.

Lemma splitext_sin_punto (name : string) :
  ~ occurs extsep name -> splitext name = (name, EmptyString).
Proof.
  intros H. unfold splitext, rfind.
  rewrite (rfind_from_absent _ _ 0 (-1) H).
  destruct (rfind_from_bound sep name 0 (-1)) as [-> | B]; [reflexivity|].
  destruct (Z.gtb_spec (-1) (rfind_from sep name 0 (-1))); [lia | reflexivity].
Qed.

Lemma splitext_punto_inicial (rest : string) :
  ~ occurs extsep rest ->
  splitext (String extsep rest) = (String extsep rest, EmptyString).
Proof.
  intros H. unfold splitext, rfind. cbn [rfind_from].
  change (Ascii.eqb extsep extsep) with true.
  change (Ascii.eqb extsep sep) with false.
  change (0 + 1)%Z with 1%Z. cbv iota.
  rewrite (rfind_from_absent _ _ 1 0 H).
  destruct (rfind_from_bound sep rest 1 (-1)) as [-> | B]; [reflexivity|].
  destruct (Z.gtb_spec 0 (rfind_from sep rest 1 (-1))); [lia | reflexivity].
Qed.

(** C10.  A name without a dot, and a name whose only dot is its first
    character (such as [.swift] or [.md]), has the empty extension; the
    empty string is not in [extensiones], so the file is not selected and
    visiting it writes nothing and opens nothing. *)
Theorem C10_no_extension_no_record (name : string) :
  (~ occurs extsep name
   \/ exists rest, name = String extsep rest /\ ~ occurs extsep rest) ->
  snd (splitext name) = EmptyString
  /\ mem EmptyString extensiones = false
  /\ seleccionado name = false
  /\ forall es root, procesar es root name = ret tt.
Proof.
  intros H.
  assert (E : splitext name = (name, EmptyString)).
  { destruct H as [H | (rest & -> & H)].
    - now apply splitext_sin_punto.
    - now apply splitext_punto_inicial. }
  assert (S : seleccionado name = false) by (unfold seleccionado; now rewrite E).
  repeat split.
  - now rewrite E.
  - exact S.
  - intros es root. now apply procesar_no_seleccionado.
Qed.

Lemma C10_witness :
  (~ occurs extsep ".swift"
   \/ exists rest, ".swift" = String extsep rest /\ ~ occurs extsep rest)
  /\ seleccionado ".swift" = false.
Proof.
  assert (H : ~ occurs extsep ".swift"
              \/ exists rest, ".swift" = String extsep rest /\ ~ occurs extsep rest).
  { right. exists "swift". split; [reflexivity|].
    simpl. unfold extsep. intuition discriminate. }
  split; [exact H|].
  exact (proj1 (proj2 (proj2 (C10_no_extension_no_record ".swift" H)))).
Defined.

Lemma take_drop (n : nat) (s : string) : take n s ++ drop n s = s.
Proof.
  revert s. induction n as [|n IH]; intros [|a s]; simpl; try reflexivity.
  now rewrite IH.
Qed.

Lemma splitext_loop_append (n : nat) (p : string) (i j : Z) :
  fst (splitext_loop n p i j) ++ snd (splitext_loop n p i j) = p.
Proof.
  revert i. induction n as [|n IH]; intros i; cbn [splitext_loop].
  - apply append_empty_r.
  - destruct (String.get (Z.to_nat i) p) as [a|]; [destruct (Ascii.eqb a extsep)|].
    + apply IH.
    + apply take_drop.
    + apply take_drop.
Qed.

(** [splitext] cuts the name in two. *)
Lemma splitext_append (p : string) : fst (splitext p) ++ snd (splitext p) = p.
Proof.
  unfold splitext. destruct (_ >? _)%Z.
  - apply splitext_loop_append.
  - apply append_empty_r.
Qed.

Lemma length_append (a b : string) :
  String.length (a ++ b) = String.length a + String.length b.
Proof. induction a as [|x a IH]; simpl; [reflexivity | now rewrite IH]. Qed.

Lemma drop_length_append (a b : string) : drop (String.length a) (a ++ b) = b.
Proof.
  induction a as [|x a IH]; simpl; [|exact IH].
  now destruct b.
Qed.

Lemma suffix_drop (a e s : string) :
  a ++ e = s -> drop (String.length s - String.length e) s = e.
Proof.
  intros <-. rewrite length_append.
  replace (String.length a + String.length e - String.length e)
    with (String.length a) by lia.
  apply drop_length_append.
Qed.

Lemma join_suffix (a b : string) : exists x, join a b = x ++ b.
Proof.
  unfold join. destruct (_ || _).
  - now exists EmptyString.
  - destruct (endswith a sep).
    + now exists a.
    + exists (a ++ String sep EmptyString). now rewrite append_assoc.
Qed.

(** A selected name ends with one of the extensions of the list. *)
Lemma seleccionado_suffix (file : string) :
  seleccionado file = true ->
  exists pre e, file = pre ++ e /\ In e extensiones.
Proof.
  unfold seleccionado. intros H. apply mem_In in H.
  exists (fst (splitext file)), (snd (splitext file)).
  split; [symmetry; apply splitext_append | exact H].
Qed.

(** ** What a run opens and scans *)

Lemma abiertos_app (t1 t2 : list event) :
  abiertos (t1 ++ t2) = (abiertos t1 ++ abiertos t2)%list.
Proof.
  induction t1 as [|[p | p | p | s] t1 IH]; simpl; try assumption.
  - reflexivity.
  - now rewrite IH.
Qed.

Lemma abiertos_flat_map {A} (f : A -> list event) (l : list A) :
  abiertos (flat_map f l) = flat_map (fun x => abiertos (f x)) l.
Proof.
  induction l as [|x l IH]; [reflexivity|].
  cbn [flat_map]. now rewrite abiertos_app, IH.
Qed.

Lemma abiertos_procesar (es : listing) (root file : string) :
  abiertos (fst (procesar es root file))
  = if seleccionado file && utf8_valid (join root file)
    then [join root file] else [].
Proof.
  destruct (procesar_casos es root file)
    as [[-> ->] | [(-> & -> & e & ->) | (-> & -> & c & ->)]]; reflexivity.
Qed.

Lemma abiertos_procesar_In (es : listing) (root file p : string) :
  In p (abiertos (fst (procesar es root file))) ->
  seleccionado file = true /\ p = join root file.
Proof.
  rewrite abiertos_procesar. destruct (seleccionado file); [|intros []].
  destruct (utf8_valid (join root file)); [|intros []].
  intros [<- | []]. auto.
Qed.

(** A path opened by the visit of a directory is that of a selected file
    of the directory, or is opened by the visit of a kept
    sub-directory. *)
Lemma abiertos_os_walk_In (es : listing) (top p : string) :
  In p (abiertos (fst (os_walk loop_body (Dir es) top))) ->
  (exists f, In f (filenames es) /\ seleccionado f = true /\ p = join top f)
  \/ (exists d, In d (filter conservar (dirnames es))
                /\ In p (abiertos (fst (entrar es top d)))).
Proof.
  destruct (os_walk_partes es top) as (k1 & k2 & ->). cbn [abiertos].
  rewrite abiertos_app, !abiertos_flat_map. intros H.
  apply in_app_or in H as [H | H]; apply in_flat_map in H as (x & Hx & H);
    apply In_firstn in Hx.
  - left. apply abiertos_procesar_In in H as [S ->]. now exists x.
  - right. now exists x.
Qed.

(** Every path opened for reading is that of a selected file. *)
Lemma abiertos_seleccionados (n : node) :
  forall top p, In p (abiertos (fst (os_walk loop_body n top))) ->
  exists top' f, p = join top' f /\ seleccionado f = true.
Proof.
  induction n as [r | es IH |] using node_tree_ind; intros top p H;
    [destruct H | | destruct H].
  apply abiertos_os_walk_In in H as [(f & _ & S & ->) | (d & _ & H)].
  - now exists top, f.
  - unfold entrar in H.
    destruct (lookup d es) as [c|] eqn:E; [|destruct H].
    apply lookup_In in E. exact (IH _ _ E _ _ H).
Qed.

Lemma lookup_app (name : string) (es1 es2 : listing) :
  lookup name (es1 ++ es2)%list
  = match lookup name es1 with
    | Some c => Some c
    | None => lookup name es2
    end.
Proof.
  induction es1 as [|[n c] es1 IH]; [reflexivity|].
  cbn [app lookup]. now destruct (n =? name).
Qed.

(** [procesar] and [entrar] consult the listing only through [lookup]. *)
Lemma procesar_lookup (es es' : listing) (root file : string) :
  lookup file es = lookup file es' ->
  procesar es root file = procesar es' root file.
Proof. unfold procesar, fin_read. now intros ->. Qed.

Lemma entrar_lookup (es es' : listing) (top d : string) :
  lookup d es = lookup d es' -> entrar es top d = entrar es' top d.
Proof. unfold entrar. now intros ->. Qed.

Lemma flat_map_ext_in {A B} (f g : A -> list B) (l : list A) :
  (forall x, In x l -> f x = g x) -> flat_map f l = flat_map g l.
Proof.
  induction l as [|x l IH]; intros H; [reflexivity|].
  cbn [flat_map]. rewrite (H x) by now left.
  rewrite IH; [reflexivity|]. intros y Hy. apply H. now right.
Qed.

Lemma names_file_swap (es1 es2 : listing) (n : string) (r r' : lectura) :
  dirnames (es1 ++ (n, File r) :: es2)%list = dirnames (es1 ++ (n, File r') :: es2)%list
  /\ filenames (es1 ++ (n, File r) :: es2)%list = filenames (es1 ++ (n, File r') :: es2)%list.
Proof.
  unfold dirnames, filenames. rewrite !filter_app. cbn.
  rewrite !map_app. split; reflexivity.
Qed.

(** The visit of a directory depends on its listing through the names,
    the visits of its files and the visits of its kept sub-directories
    only. *)
Lemma os_walk_congr (es es' : listing) (top : string) :
  dirnames es = dirnames es' ->
  filenames es = filenames es' ->
  (forall f, procesar es top f = procesar es' top f) ->
  (forall d, conservar d = true -> entrar es top d = entrar es' top d) ->
  os_walk loop_body (Dir es) top = os_walk loop_body (Dir es') top.
Proof.
  intros Hd Hf Hp He. rewrite !os_walk_seq, Hd, Hf.
  rewrite (for_each_ext (filenames es') (procesar es top) (procesar es' top))
    by (intros; apply Hp).
  rewrite (for_each_ext (filter conservar (dirnames es'))
             (entrar es top) (entrar es' top)); [reflexivity|].
  intros d H. apply filter_In in H as [_ H]. now apply He.
Qed.

(** C9.  The output file [proyecto_swift.txt] has extension [.txt], which
    is not in [extensiones].  Visiting it writes nothing and opens
    nothing; whatever it holds, the run over the root is the same; and no
    run over any tree opens [./proyecto_swift.txt] for reading. *)
Theorem C9_output_file_never_exported :
  splitext archivo_salida = ("proyecto_swift", ".txt")
  /\ seleccionado archivo_salida = false
  /\ (forall es root, procesar es root archivo_salida = ret tt)
  /\ (forall es1 es2 r r',
        exportar (es1 ++ (archivo_salida, File r) :: es2)%list
        = exportar (es1 ++ (archivo_salida, File r') :: es2)%list)
  /\ (forall fs, ~ In (join "." archivo_salida) (abiertos (fst (exportar fs)))).
Proof.
  split; [reflexivity|]. split; [reflexivity|].
  split; [intros; now apply procesar_no_seleccionado|]. split.
  - intros es1 es2 r r'. unfold exportar.
    destruct (names_file_swap es1 es2 archivo_salida r r') as [Ed Ef].
    apply os_walk_congr; [exact Ed | exact Ef | |].
    + intros f.
      destruct (String.eqb_spec archivo_salida f) as [<- | N].
      * now rewrite !procesar_no_seleccionado.
      * apply procesar_lookup. rewrite !lookup_app. cbn [lookup].
        apply String.eqb_neq in N. now rewrite N.
    + intros d _. unfold entrar.
      rewrite !lookup_app. cbn [lookup].
      destruct (lookup d es1); [reflexivity|].
      now destruct (archivo_salida =? d).
  - intros fs H.
    apply abiertos_seleccionados in H as (top & f & E & S).
    apply seleccionado_suffix in S as (pre & e & -> & He).
    destruct (join_suffix top (pre ++ e)) as [x Ex].
    rewrite Ex, <- append_assoc in E.
    symmetry in E. apply suffix_drop in E.
    cbn in He.
    repeat destruct He as [<- | He]; try (vm_compute in E; discriminate E).
    destruct He.
Qed.

(** ** Records *)

Lemma cabecera_eq (ruta cuerpo : string) :
  cabecera ruta ++ cuerpo = nl ++ nl ++ "===== " ++ ruta ++ " =====" ++ nl ++ cuerpo.
Proof. unfold cabecera. now rewrite !append_assoc. Qed.

Lemma en_registros_app (t1 t2 : list event) :
  en_registros t1 -> en_registros t2 -> en_registros (t1 ++ t2).
Proof.
  induction 1; intros H2; cbn [app]; [assumption | |]; constructor; auto.
Qed.

Lemma en_registros_flat_map {A} (f : A -> list event) (l : list A) :
  (forall x, In x l -> en_registros (f x)) -> en_registros (flat_map f l).
Proof.
  induction l as [|x l IH]; intros H; [constructor|].
  cbn [flat_map]. apply en_registros_app.
  - apply H. now left.
  - apply IH. intros y Hy. apply H. now right.
Qed.

Lemma procesar_en_registros (es : listing) (root file : string) :
  en_registros (fst (procesar es root file)).
Proof.
  destruct (procesar_casos es root file)
    as [[_ ->] | [(_ & _ & e & ->) | (_ & _ & c & ->)]]; repeat constructor.
Qed.

(** Every walk is made of scans and whole records. *)
Lemma os_walk_en_registros (n : node) (top : string) :
  en_registros (fst (os_walk loop_body n top)).
Proof.
  apply os_walk_trace_prop.
  - constructor.
  - apply en_registros_app.
  - repeat constructor.
  - apply procesar_en_registros.
Qed.

Lemma entrar_en_registros (es : listing) (top d : string) :
  en_registros (fst (entrar es top d)).
Proof.
  unfold entrar. destruct (lookup d es); [|constructor].
  apply os_walk_en_registros.
Qed.

Lemma registros_app (t1 t2 : list event) :
  en_registros t1 ->
  registros (t1 ++ t2) = (registros t1 ++ registros t2)%list.
Proof.
  induction 1 as [| p t _ IH | p c t _ IH]; [reflexivity | exact IH |].
  cbn [app registros]. rewrite String.eqb_refl. cbn [app]. now f_equal.
Qed.

Lemma registros_flat_map {A} (f : A -> list event) (l : list A) :
  (forall x, In x l -> en_registros (f x)) ->
  registros (flat_map f l) = flat_map (fun x => registros (f x)) l.
Proof.
  induction l as [|x l IH]; intros H; [reflexivity|].
  cbn [flat_map]. rewrite registros_app by (apply H; now left).
  rewrite IH; [reflexivity|]. intros y Hy. apply H. now right.
Qed.

(** The paths of the records are the paths opened, in order. *)
Lemma registros_abiertos (t : list event) :
  en_registros t -> map fst (registros t) = abiertos t.
Proof.
  induction 1 as [| p t _ IH | p c t _ IH]; [reflexivity | exact IH |].
  cbn [registros abiertos]. rewrite String.eqb_refl. cbn [map fst].
  now f_equal.
Qed.

(** The document is its records put end to end. *)
Lemma registros_written (t : list event) :
  en_registros t ->
  written t = concat_all (map texto_de_registro (registros t)).
Proof.
  induction 1 as [| p t _ IH | p c t _ IH]; [reflexivity | exact IH |].
  cbn [registros written]. rewrite String.eqb_refl.
  cbn [map concat_all fold_right]. fold (concat_all (map texto_de_registro (registros t))).
  rewrite <- IH. unfold texto_de_registro. cbn [fst snd].
  rewrite <- cabecera_eq. now rewrite append_assoc.
Qed.

(** C6, as the script behaves.  In any order of the root listing, and
    whatever reading [a.py] and [c.md] would give, the run scans the root
    only, opens [./b.md] only, and leaves the document made of two line
    feeds, the line [===== ./b.md =====], a line feed and [hello]: the
    content starts right after the header line. *)
Theorem C6_scenario (ra rc : lectura) (fs : listing) :
  Permutation fs
    [("a.py", File ra); ("b.md", File (Leido "hello"));
     ("test_data", Dir [("c.md", File rc)])] ->
  exportar fs
  = ([EvScandir "."; EvFoutWrite (nl ++ nl ++ "===== ./b.md =====" ++ nl);
      EvOpenRead "./b.md"; EvFoutWrite "hello"], Returns tt)
  /\ documento fs = nl ++ nl ++ "===== ./b.md =====" ++ nl ++ "hello".
Proof.
  intros P.
  pose proof (Permutation_length P) as L.
  destruct fs as [|x [|y [|z [|w fs]]]]; try discriminate L.
  apply Permutation_sym in P.
  pose proof (Permutation_in _ P (or_introl eq_refl)) as Ha.
  pose proof (Permutation_in _ P (or_intror (or_introl eq_refl))) as Hb.
  pose proof (Permutation_in _ P (or_intror (or_intror (or_introl eq_refl)))) as Hc.
  clear P L. cbn [In] in Ha, Hb, Hc.
  destruct Ha as [-> | [-> | [-> | []]]];
    destruct Hb as [Hb | [Hb | [Hb | []]]]; try discriminate Hb; subst;
    destruct Hc as [Hc | [Hc | [Hc | []]]]; try discriminate Hc; subst;
    split; reflexivity.
Qed.

Lemma C6_witness :
  documento escenario = nl ++ nl ++ "===== ./b.md =====" ++ nl ++ "hello".
Proof.
  exact (proj2 (@C6_scenario (Leido "print(1)") (Leido "secret") escenario
                  (Permutation_refl _))).
Defined.

(** C6, as it is worded, fails: the document of the scenario nowhere
    holds the header line followed by an empty line and [hello]. *)
Lemma C6_counterexample :
  ~ exists pre post,
      documento escenario
      = pre ++ ("===== ./b.md =====" ++ nl ++ nl ++ "hello") ++ post.
Proof.
  intros (pre & post & E).
  pose proof (contains_append ("===== ./b.md =====" ++ nl ++ nl ++ "hello") pre post) as C.
  rewrite <- E in C. vm_compute in C. discriminate C.
Qed.

(** ** Pruning *)

Lemma escaneados_app (t1 t2 : list event) :
  escaneados (t1 ++ t2) = (escaneados t1 ++ escaneados t2)%list.
Proof.
  induction t1 as [|[p | p | p | s] t1 IH]; simpl; try assumption.
  - reflexivity.
  - now rewrite IH.
Qed.

Lemma escaneados_flat_map {A} (f : A -> list event) (l : list A) :
  escaneados (flat_map f l) = flat_map (fun x => escaneados (f x)) l.
Proof.
  induction l as [|x l IH]; [reflexivity|].
  cbn [flat_map]. now rewrite escaneados_app, IH.
Qed.

Lemma escaneados_procesar (es : listing) (root file : string) :
  escaneados (fst (procesar es root file)) = [].
Proof.
  destruct (procesar_casos es root file)
    as [[_ ->] | [(_ & _ & e & ->) | (_ & _ & c & ->)]]; reflexivity.
Qed.

(** A directory scanned by the visit of [top] is [top] itself or is
    scanned by the visit of a kept sub-directory. *)
Lemma escaneados_os_walk_In (es : listing) (top p : string) :
  In p (escaneados (fst (os_walk loop_body (Dir es) top))) ->
  p = top
  \/ exists d, In d (filter conservar (dirnames es))
               /\ In p (escaneados (fst (entrar es top d))).
Proof.
  destruct (os_walk_partes es top) as (k1 & k2 & ->). cbn [escaneados].
  rewrite escaneados_app, !escaneados_flat_map. intros [<- | H]; [now left|].
  right. apply in_app_or in H as [H | H];
    apply in_flat_map in H as (x & Hx & H); apply In_firstn in Hx.
  - rewrite escaneados_procesar in H. destruct H.
  - now exists x.
Qed.

(** A name left in [dirs] that resolves to a directory is a step of
    [alcanza]. *)
Lemma entrar_paso (es : listing) (d : string) (sub : listing) :
  In d (filter conservar (dirnames es)) ->
  lookup d es = Some (Dir sub) ->
  In (d, Dir sub) es /\ ~ excluido d.
Proof.
  intros H E. split; [now apply lookup_In|].
  apply filter_In in H as [_ H]. now apply conservar_no_excluido.
Qed.

(** Every directory scanned is reached from the start through names
    that are not excluded. *)
Lemma escaneados_alcanza (n : node) :
  forall top p, In p (escaneados (fst (os_walk loop_body n top))) ->
  exists es es', n = Dir es /\ alcanza es top es' p.
Proof.
  induction n as [r | es IH |] using node_tree_ind; intros top p H;
    [destruct H | | destruct H].
  exists es. apply escaneados_os_walk_In in H as [-> | (d & Hd & H)].
  - exists es. split; [reflexivity | constructor].
  - unfold entrar in H.
    destruct (lookup d es) as [c|] eqn:E; [|destruct H].
    destruct (IH _ _ (lookup_In _ _ _ E) _ _ H) as (sub & es' & -> & A).
    destruct (entrar_paso _ _ _ Hd E) as [Hin Hex].
    exists es'. split; [reflexivity|]. now apply alc_baja with d sub.
Qed.

(** Every file opened lies in a directory so reached. *)
Lemma abiertos_alcanza (n : node) :
  forall top p, In p (abiertos (fst (os_walk loop_body n top))) ->
  exists es es' top' f,
    n = Dir es /\ alcanza es top es' top'
    /\ In f (filenames es') /\ seleccionado f = true /\ p = join top' f.
Proof.
  induction n as [r | es IH |] using node_tree_ind; intros top p H;
    [destruct H | | destruct H].
  exists es. apply abiertos_os_walk_In in H as [(f & Hf & S & ->) | (d & Hd & H)].
  - exists es, top, f. repeat split; auto. constructor.
  - unfold entrar in H.
    destruct (lookup d es) as [c|] eqn:E; [|destruct H].
    destruct (IH _ _ (lookup_In _ _ _ E) _ _ H)
      as (sub & es' & top' & f & -> & A & Hf & S & ->).
    destruct (entrar_paso _ _ _ Hd E) as [Hin Hex].
    exists es', top', f. repeat split; auto. now apply alc_baja with d sub.
Qed.

Lemma difieren_walk (es es' : listing) :
  difieren_en_excluidos es es' ->
  (forall top, os_walk loop_body (Dir es) top = os_walk loop_body (Dir es') top)
  /\ dirnames es = dirnames es'
  /\ filenames es = filenames es'
  /\ (forall ruta f, fin_read es ruta f = fin_read es' ruta f)
  /\ (forall d top, conservar d = true -> entrar es top d = entrar es' top d).
Proof.
  induction 1 as [ | n r es es' _ (_ & Hd & Hf & Hr & He)
                   | n sub sub' es es' _ (Hw & _) _ (_ & Hd & Hf & Hr & He)
                   | n sub sub' es es' Hx _ (_ & Hd & Hf & Hr & He)
                   | n es es' _ (_ & Hd & Hf & Hr & He) ];
    (match goal with
     | |- (forall top, os_walk _ (Dir ?a) _ = os_walk _ (Dir ?b) _) /\ _ =>
         cut (dirnames a = dirnames b
              /\ filenames a = filenames b
              /\ (forall ruta f, fin_read a ruta f = fin_read b ruta f)
              /\ (forall d top, conservar d = true -> entrar a top d = entrar b top d));
         [intros (H1 & H2 & H3 & H4); repeat split; auto;
          intros top; apply os_walk_congr; auto;
          intros f; unfold procesar; now rewrite H3 |]
     end).
  - repeat split; reflexivity.
  - unfold dirnames, filenames in *. cbn. fold (dirnames es) (dirnames es').
    repeat split.
    + exact Hd.
    + now f_equal.
    + intros ruta f. specialize (Hr ruta f). unfold fin_read in *. cbn [lookup].
      now destruct (n =? f).
    + intros d top K. specialize (He d top K). unfold entrar in *. cbn [lookup].
      now destruct (n =? d).
  - unfold dirnames, filenames in *. cbn.
    repeat split.
    + now f_equal.
    + exact Hf.
    + intros ruta f. specialize (Hr ruta f). unfold fin_read in *. cbn [lookup].
      now destruct (n =? f).
    + intros d top K. specialize (He d top K). unfold entrar in *. cbn [lookup].
      destruct (n =? d); [apply Hw | exact He].
  - unfold dirnames, filenames in *. cbn.
    repeat split.
    + now f_equal.
    + exact Hf.
    + intros ruta f. specialize (Hr ruta f). unfold fin_read in *. cbn [lookup].
      now destruct (n =? f).
    + intros d top K. specialize (He d top K). unfold entrar in *. cbn [lookup].
      destruct (String.eqb_spec n d) as [<- | _]; [|exact He].
      apply conservar_excluido in Hx. congruence.
  - unfold dirnames, filenames in *. cbn.
    repeat split.
    + now f_equal.
    + exact Hf.
    + intros ruta f. specialize (Hr ruta f). unfold fin_read in *. cbn [lookup].
      now destruct (n =? f).
    + intros d top K. specialize (He d top K). unfold entrar in *. cbn [lookup].
      now destruct (n =? d).
Qed.

(** C1.  A name is filtered out of [dirs] exactly when it is one of
    [excluir_directorios], begins with a dot, or holds [test] in any
    case.  Two trees that differ only inside directories with such a name,
    at any depth, give the same run: the same scans, the same reads, the
    same bytes written.  Every directory a run scans, and the directory of
    every file it opens, is reached from the root through names that are
    not excluded. *)
Theorem C1_excluded_directories_pruned (es es' : listing) :
  difieren_en_excluidos es es' ->
  exportar es = exportar es'
  /\ (forall d, excluido d <-> conservar d = false)
  /\ (forall p, In p (escaneados (fst (exportar es))) ->
        exists es1, alcanza es "." es1 p)
  /\ (forall p, In p (abiertos (fst (exportar es))) ->
        exists es1 top f,
          alcanza es "." es1 top /\ In f (filenames es1) /\ p = join top f).
Proof.
  intros H. split; [|split; [|split]].
  - apply (proj1 (difieren_walk _ _ H)).
  - intros d. symmetry. apply conservar_excluido.
  - intros p Hp. apply escaneados_alcanza in Hp as (es0 & es1 & [= <-] & A).
    now exists es1.
  - intros p Hp.
    apply abiertos_alcanza in Hp as (es0 & es1 & top & f & [= <-] & A & Hf & _ & ->).
    now exists es1, top, f.
Qed.

Lemma proyecto_difiere : difieren_en_excluidos proyecto proyecto_podado.
Proof.
  unfold proyecto, proyecto_podado.
  apply dif_excluido; [left; cbn; tauto|].
  apply dif_dir.
  - apply dif_excluido; [|apply dif_file, dif_nil].
    right; right. now exists "App", "Test", "s".
  - apply dif_excluido; [left; cbn; tauto | apply dif_nil].
Defined.

Lemma C1_witness :
  exportar proyecto = exportar proyecto_podado
  /\ escaneados (fst (exportar proyecto)) = ["."; "./Sources"].
Proof.
  split; [|reflexivity].
  exact (proj1 (C1_excluded_directories_pruned _ _ proyecto_difiere)).
Defined.

(** ** The records of a run *)

Lemma registros_procesar_In (es : listing) (root file p c : string) :
  In (p, c) (registros (fst (procesar es root file))) ->
  seleccionado file = true /\ p = join root file
  /\ (forall r, lookup file es = Some (File r) -> c = cuerpo_de p r).
Proof.
  destruct (seleccionado file) eqn:S;
    [|rewrite (procesar_no_seleccionado _ _ _ S); intros []].
  destruct (utf8_valid (join root file)) eqn:V;
    [|rewrite (procesar_no_codificable _ _ _ S V); intros []].
  destruct (procesar_seleccionado es root file S V) as (cuerpo & -> & H & _).
  cbn [fst registros]. rewrite String.eqb_refl.
  intros [[= <- <-] | []]. auto.
Qed.

(** A record written by the visit of a directory is that of a selected
    file of the directory, or is written by the visit of a kept
    sub-directory. *)
Lemma registros_os_walk_In (es : listing) (top : string) (x : string * string) :
  In x (registros (fst (os_walk loop_body (Dir es) top))) ->
  (exists f, In f (filenames es)
             /\ In x (registros (fst (procesar es top f))))
  \/ (exists d, In d (filter conservar (dirnames es))
                /\ In x (registros (fst (entrar es top d)))).
Proof.
  destruct (os_walk_partes es top) as (k1 & k2 & ->). cbn [registros].
  rewrite registros_app
    by (apply en_registros_flat_map; intros; apply procesar_en_registros).
  rewrite !registros_flat_map
    by (intros; first [apply procesar_en_registros | apply entrar_en_registros]).
  intros H. apply in_app_or in H as [H | H];
    apply in_flat_map in H as (y & Hy & H); apply In_firstn in Hy.
  - left. now exists y.
  - right. now exists y.
Qed.

(** Every record is that of a selected file of a directory reached
    through names that are not excluded; its body is what the read of
    the file gives. *)
Lemma registros_alcanza (n : node) :
  forall top p c, In (p, c) (registros (fst (os_walk loop_body n top))) ->
  exists es es' top' f,
    n = Dir es /\ alcanza es top es' top'
    /\ In f (filenames es') /\ seleccionado f = true /\ p = join top' f
    /\ (forall r, lookup f es' = Some (File r) -> c = cuerpo_de p r).
Proof.
  induction n as [r | es IH |] using node_tree_ind; intros top p c H;
    [destruct H | | destruct H].
  exists es. apply registros_os_walk_In in H as [(f & Hf & H) | (d & Hd & H)].
  - apply registros_procesar_In in H as (S & -> & K).
    exists es, top, f. repeat split; auto. constructor.
  - unfold entrar in H.
    destruct (lookup d es) as [c0|] eqn:E; [|destruct H].
    destruct (IH _ _ (lookup_In _ _ _ E) _ _ _ H)
      as (sub & es' & top' & f & -> & A & Hf & S & -> & K).
    destruct (entrar_paso _ _ _ Hd E) as [Hin Hex].
    exists es', top', f. repeat split; auto. now apply alc_baja with d sub.
Qed.

(** C5, as the script behaves.  Whatever the tree, and also when the run
    ends early, the document is its records put end to end with nothing
    in between, and a record is two line feeds, the line
    [===== <ruta> =====] and a line feed, followed at once by the body
    and by nothing else.  Every record is that of a selected file of a
    visited directory; its body is the text read from the file (its bytes
    decoded as UTF-8 with the bytes that do not decode dropped, and CR LF
    and CR turned into LF), which is the content itself when that is
    well-formed UTF-8 without CR, or the note of C4 when the read
    raised. *)
Theorem C5_record_format (fs : listing) :
  documento fs
  = concat_all (map texto_de_registro (registros (fst (exportar fs))))
  /\ (forall p c,
        texto_de_registro (p, c)
        = nl ++ nl ++ "===== " ++ p ++ " =====" ++ nl ++ c)
  /\ (forall p c,
        In (p, c) (registros (fst (exportar fs))) ->
        exists es top file,
          alcanza fs "." es top /\ In file (filenames es)
          /\ seleccionado file = true /\ p = join top file
          /\ (forall contenido,
                lookup file es = Some (File (Leido contenido)) ->
                c = read_text contenido
                /\ (utf8_valid contenido = true -> ~ occurs CR contenido ->
                    c = contenido))
          /\ (forall mensaje,
                lookup file es = Some (File (Fallo mensaje)) ->
                c = anotacion p mensaje)).
Proof.
  split; [|split].
  - apply registros_written, os_walk_en_registros.
  - reflexivity.
  - intros p c H. unfold exportar in H.
    apply registros_alcanza in H
      as (es0 & es & top & file & [= <-] & A & Hf & S & -> & K).
    exists es, top, file. repeat split; auto.
    + now apply (K (Leido contenido)).
    + intros V N. rewrite (K (Leido contenido) H). now apply read_text_id.
    + intros mensaje H. now apply (K (Fallo mensaje)).
Qed.

(** C5, as it is worded, fails on a file with Windows line ends: the
    header line of [a.md] is not followed by the raw content [x CR LF
    y], the document holds [x LF y].  And the header of a file that
    cannot be read is followed by the note of C4, not by content. *)
Lemma C5_counterexample :
  (documento con_crlf
   = nl ++ nl ++ "===== ./a.md =====" ++ nl ++ "x" ++ nl ++ "y"
   /\ ~ exists pre post,
         documento con_crlf
         = pre ++ ("===== ./a.md =====" ++ nl ++ "x" ++ String CR (String LF "y"))
               ++ post)
  /\ documento con_fallo
     = nl ++ nl ++ "===== ./locked.json =====" ++ nl
       ++ "[Error leyendo ./locked.json: [Errno 13] Permission denied: './locked.json']"
       ++ nl.
Proof.
  split; [split|]; [reflexivity | | reflexivity].
  intros (pre & post & E).
  pose proof (contains_append
                ("===== ./a.md =====" ++ nl ++ "x" ++ String CR (String LF "y"))
                pre post) as C.
  rewrite <- E in C. vm_compute in C. discriminate C.
Qed.

(** ** Paths of a well-formed tree *)

Lemma endswith_occurs (s : string) (c : ascii) :
  endswith s c = true -> occurs c s.
Proof.
  induction s as [|a s IH]; simpl; [discriminate|].
  destruct s as [|b s].
  - intros H. left. now apply Ascii.eqb_eq.
  - intros H. right. auto.
Qed.

Lemma endswith_append (a b : string) (c : ascii) :
  b <> EmptyString -> endswith (a ++ b) c = endswith b c.
Proof.
  intros Hb. induction a as [|x a IH]; [reflexivity|].
  cbn [append endswith]. destruct (a ++ b) eqn:E; [|exact IH].
  destruct a; [|discriminate E]. now elim Hb.
Qed.

Lemma join_normal (top x : string) :
  ruta_normal top -> nombre_valido x ->
  join top x = top ++ String sep x /\ ruta_normal (top ++ String sep x).
Proof.
  intros [Ht Et] [Hx Sx]. split.
  - unfold join, startswith. rewrite Et.
    destruct x as [|c x]; [now elim Hx|].
    cbn [String.prefix]. destruct (ascii_dec sep c) as [<- | _].
    + elim Sx. now left.
    + apply String.eqb_neq in Ht. now rewrite Ht.
  - split.
    + destruct top; [now elim Ht | discriminate].
    + rewrite endswith_append by discriminate.
      destruct (endswith (String sep x) sep) eqn:E; [|reflexivity].
      cbn [endswith] in E. destruct x as [|c x]; [now elim Hx|].
      apply endswith_occurs in E. contradiction.
Qed.

Lemma join_ruta_normal (top x : string) :
  ruta_normal top -> nombre_valido x -> ruta_normal (join top x).
Proof.
  intros N V. destruct (join_normal _ _ N V) as [-> H]. exact H.
Qed.

(** The last [/] of a path: a path determines its last component. *)
Lemma ultimo_componente (a a' f f' : string) :
  ~ occurs sep f -> ~ occurs sep f' ->
  a ++ String sep f = a' ++ String sep f' -> a = a' /\ f = f'.
Proof.
  intros Hf Hf'. revert a'.
  induction a as [|c a IH]; intros [|c' a'] E; cbn [append] in E.
  - injection E as ->. auto.
  - injection E as <- ->. elim Hf. apply occurs_append. right. now left.
  - injection E as -> <-. elim Hf'. apply occurs_append. right. now left.
  - injection E as -> E. destruct (IH _ E) as [-> ->]. auto.
Qed.

(** The first [/] after a directory: it determines the next component. *)
Lemma primer_componente (d d' r r' : string) :
  ~ occurs sep d -> ~ occurs sep d' ->
  d ++ String sep r = d' ++ String sep r' -> d = d'.
Proof.
  revert d'. induction d as [|c d IH]; intros [|c' d'] Hd Hd' E;
    cbn [append] in E.
  - reflexivity.
  - injection E as <- _. elim Hd'. now left.
  - injection E as -> _. elim Hd. now left.
  - injection E as -> E. f_equal. apply (IH d'); simpl in *; tauto.
Qed.

Lemma bien_formado_In (es : listing) (n : string) (c : node) :
  bien_formado es -> In (n, c) es -> nombre_valido n /\ bien_formado_nodo c.
Proof.
  induction 1 as [| n0 r es V _ _ IH | n0 sub es V _ W _ IH | n0 es V _ _ IH];
    intros H; [destruct H | | |];
    (destruct H as [E | H]; [|auto]); injection E as <- <-; cbn; auto.
Qed.

Lemma bien_formado_nombres (es : listing) :
  bien_formado es -> NoDup (map fst es).
Proof. induction 1; cbn; constructor; assumption. Qed.

Lemma lookup_NoDup (es : listing) (n : string) (c : node) :
  NoDup (map fst es) -> In (n, c) es -> lookup n es = Some c.
Proof.
  induction es as [|[n0 c0] es IH]; cbn [map fst lookup]; intros ND H;
    [destruct H|].
  apply NoDup_cons_iff in ND as [N ND]. destruct H as [[= -> ->] | H].
  - now rewrite String.eqb_refl.
  - destruct (String.eqb_spec n0 n) as [-> | _]; [|auto].
    elim N. apply in_map_iff. now exists (n, c).
Qed.

Lemma bien_formado_lookup (es : listing) (n : string) (c : node) :
  bien_formado es -> In (n, c) es -> lookup n es = Some c.
Proof. intros W. apply lookup_NoDup. now apply bien_formado_nombres. Qed.

Lemma NoDup_map_filter (p : string * node -> bool) (es : listing) :
  NoDup (map fst es) -> NoDup (map fst (filter p es)).
Proof.
  induction es as [|[n c] es IH]; cbn [map fst filter]; intros ND;
    [constructor|].
  apply NoDup_cons_iff in ND as [N ND].
  destruct (p (n, c)); [|auto]. cbn [map fst]. constructor; [|auto].
  intros H. apply N. apply in_map_iff in H as (x & E & H).
  apply filter_In in H as [H _]. apply in_map_iff. now exists x.
Qed.

Lemma bien_formado_NoDup (es : listing) :
  bien_formado es -> NoDup (filenames es) /\ NoDup (dirnames es).
Proof.
  intros W. apply bien_formado_nombres in W.
  split; now apply NoDup_map_filter.
Qed.

Lemma filenames_In (es : listing) (f : string) :
  In f (filenames es) <-> exists r, In (f, File r) es.
Proof.
  unfold filenames. rewrite in_map_iff. split.
  - intros ([n [r | sub |]] & E & H); apply filter_In in H as [H K];
      cbn in *; subst; [now exists r | discriminate | discriminate].
  - intros [r H]. exists (f, File r). split; [reflexivity|].
    apply filter_In. auto.
Qed.

Lemma dirnames_In (es : listing) (d : string) :
  In d (dirnames es) <-> exists c, In (d, c) es /\ is_dir c = true.
Proof.
  unfold dirnames. rewrite in_map_iff. split.
  - intros ([n c] & E & H). apply filter_In in H as [H K].
    cbn in *. subst. now exists c.
  - intros (c & H & K). exists (d, c). split; [reflexivity|].
    apply filter_In. auto.
Qed.

Lemma alcanza_bien_formado (es es' : listing) (top top' : string) :
  alcanza es top es' top' ->
  bien_formado es -> ruta_normal top ->
  bien_formado es' /\ ruta_normal top'.
Proof.
  induction 1 as [| es top d sub es' top' Hin _ _ IH]; intros W N; [auto|].
  destruct (bien_formado_In _ _ _ W Hin) as [V Ws].
  destruct (join_normal _ _ N V) as [E N']. rewrite E in IH. now apply IH.
Qed.

Lemma alcanza_utf8 (es es' : listing) (top top' : string) :
  alcanza es top es' top' ->
  nombres_utf8 es -> utf8_valid top = true ->
  nombres_utf8 es' /\ utf8_valid top' = true.
Proof.
  induction 1 as [| es top d sub es' top' Hin _ _ IH]; intros N V; [auto|].
  destruct (nombres_utf8_In _ _ _ N Hin) as [Vd Ns].
  apply IH; [exact Ns | now apply utf8_valid_join].
Qed.

Lemma raiz_normal : ruta_normal ".".
Proof. split; [discriminate | reflexivity]. Qed.

Lemma alcanza_bajo (es es' : listing) (top top' : string) :
  alcanza es top es' top' ->
  bien_formado es -> ruta_normal top ->
  top' = top \/ bajo top top'.
Proof.
  induction 1 as [| es top d sub es' top' Hin _ _ IH]; intros W N; [now left|].
  destruct (bien_formado_In _ _ _ W Hin) as [V Ws].
  destruct (join_normal _ _ N V) as [E N']. rewrite E in IH.
  right. destruct (IH Ws N') as [-> | [r ->]].
  - now exists d.
  - exists (d ++ String sep r). now rewrite append_assoc.
Qed.

(** Every file opened by the visit of [top] lies below [top]. *)
Lemma abiertos_bajo (es : listing) (top p : string) :
  bien_formado es -> ruta_normal top ->
  In p (abiertos (fst (os_walk loop_body (Dir es) top))) ->
  exists r, p = top ++ String sep r /\ r <> EmptyString.
Proof.
  intros W N H.
  apply abiertos_alcanza in H as (es0 & es' & top' & f & [= <-] & A & Hf & _ & ->).
  destruct (alcanza_bien_formado _ _ _ _ A W N) as [W' N'].
  apply filenames_In in Hf as [r Hf].
  destruct (bien_formado_In _ _ _ W' Hf) as [V _].
  destruct (join_normal _ _ N' V) as [-> _].
  destruct (alcanza_bajo _ _ _ _ A W N) as [-> | [q ->]].
  - exists f. split; [reflexivity | apply V].
  - exists (q ++ String sep f). split; [now rewrite append_assoc|].
    destruct q; discriminate.
Qed.

Lemma NoDup_flat_map {A B} (f : A -> list B) (l : list A) :
  (forall x, In x l -> NoDup (f x)) ->
  (forall x y b, In x l -> In y l -> In b (f x) -> In b (f y) -> x = y) ->
  NoDup l -> NoDup (flat_map f l).
Proof.
  intros Hf Hd Hl. induction Hl as [|x l Hx Hl IH]; [constructor|].
  cbn [flat_map]. apply NoDup_app.
  - apply Hf. now left.
  - apply IH.
    + intros y Hy. apply Hf. now right.
    + intros y z b Hy Hz. apply Hd; now right.
  - intros b Hb Hb'. apply in_flat_map in Hb' as (y & Hy & Hb').
    apply Hx. replace x with y; [assumption|].
    symmetry. apply (Hd x y b); auto; [now left | now right].
Qed.

Lemma flat_map_In_split {A B} (f : A -> list B) (l : list A) (x : A) :
  In x l -> exists l1 l2, l = (l1 ++ x :: l2)%list
                          /\ flat_map f l = (flat_map f l1 ++ f x ++ flat_map f l2)%list.
Proof.
  intros H. apply in_split in H as (l1 & l2 & ->).
  exists l1, l2. split; [reflexivity|]. now rewrite flat_map_app.
Qed.

(** What the visit does for a sub-directory of a well-formed listing. *)
Lemma entrar_Dir (es : listing) (top d : string) (sub : listing) :
  bien_formado es -> In (d, Dir sub) es ->
  entrar es top d = os_walk loop_body (Dir sub) (join top d).
Proof.
  intros W H. unfold entrar. now rewrite (bien_formado_lookup _ _ _ W H).
Qed.

Lemma entrar_abiertos_bajo (es : listing) (top d p : string) :
  bien_formado es -> ruta_normal top ->
  In d (dirnames es) ->
  In p (abiertos (fst (entrar es top d))) ->
  nombre_valido d /\ exists r, p = top ++ String sep (d ++ String sep r).
Proof.
  intros W N Hd Hp. apply dirnames_In in Hd as (c & Hd & _).
  destruct (bien_formado_In _ _ _ W Hd) as [V Ws]. split; [assumption|].
  unfold entrar in Hp. rewrite (bien_formado_lookup _ _ _ W Hd) in Hp.
  destruct c as [r | sub |]; try destruct Hp.
  destruct (join_normal _ _ N V) as [E N']. rewrite E in Hp.
  apply abiertos_bajo in Hp as (r & -> & _); auto.
  exists r. now rewrite append_assoc.
Qed.

(** Over names that encode, the paths opened by the visit of a
    directory, in order. *)
Lemma abiertos_os_walk (es : listing) (top : string) :
  nombres_utf8 es -> utf8_valid top = true ->
  abiertos (fst (os_walk loop_body (Dir es) top))
  = (map (join top) (filter seleccionado (filenames es))
     ++ flat_map (fun d => abiertos (fst (entrar es top d)))
          (filter conservar (dirnames es)))%list.
Proof.
  intros N V. rewrite (os_walk_trace _ _ N V). cbn [fst abiertos].
  rewrite abiertos_app, !abiertos_flat_map. f_equal.
  assert (K : forall f, In f (filenames es) -> utf8_valid (join top f) = true)
    by (intros f Hf; apply utf8_valid_join;
        [exact V | now apply (nombres_utf8_filenames es f)]).
  induction (filenames es) as [|f l IH]; [reflexivity|].
  cbn [flat_map filter]. rewrite abiertos_procesar, IH
    by (intros; apply K; now right).
  rewrite (K f) by now left. rewrite andb_true_r.
  now destruct (seleccionado f).
Qed.

(** In a well-formed tree whose names encode, no path is opened twice. *)
Lemma abiertos_NoDup (n : node) :
  forall top,
  bien_formado_nodo n -> ruta_normal top ->
  nombres_utf8_nodo n -> utf8_valid top = true ->
  NoDup (abiertos (fst (os_walk loop_body n top))).
Proof.
  induction n as [r | es IH |] using node_tree_ind; intros top W N U V;
    [constructor | | constructor].
  cbn in W, U. rewrite (abiertos_os_walk _ _ U V).
  destruct (bien_formado_NoDup _ W) as [NDf NDd].
  assert (VF : forall f, In f (filter seleccionado (filenames es)) ->
               join top f = top ++ String sep f /\ ~ occurs sep f).
  { intros f H. apply filter_In in H as [H _].
    apply filenames_In in H as [r H].
    destruct (bien_formado_In _ _ _ W H) as [Vf _].
    split; [apply (join_normal _ _ N Vf) | apply Vf]. }
  apply NoDup_app.
  - apply NoDup_map_NoDup_ForallPairs; [|now apply NoDup_filter].
    intros f g Hf Hg E.
    rewrite (proj1 (VF f Hf)), (proj1 (VF g Hg)) in E.
    apply append_cancel_l in E. now injection E.
  - apply NoDup_flat_map; [| |now apply NoDup_filter].
    + intros d Hd. apply filter_In in Hd as [Hd _].
      apply dirnames_In in Hd as (c & Hd & _).
      unfold entrar. rewrite (bien_formado_lookup _ _ _ W Hd).
      destruct (bien_formado_In _ _ _ W Hd) as [Vd Ws].
      destruct (nombres_utf8_In _ _ _ U Hd) as [Ud Us].
      apply (IH _ _ Hd); auto.
      * now apply join_ruta_normal.
      * now apply utf8_valid_join.
    + intros d d' p Hd Hd' Hp Hp'.
      apply filter_In in Hd as [Hd _]. apply filter_In in Hd' as [Hd' _].
      destruct (entrar_abiertos_bajo _ _ _ _ W N Hd Hp) as [[_ Vd] [r E]].
      destruct (entrar_abiertos_bajo _ _ _ _ W N Hd' Hp') as [[_ Vd'] [r' E']].
      rewrite E in E'. apply append_cancel_l in E'. injection E' as E'.
      now apply (primer_componente _ _ _ _ Vd Vd' E').
  - intros p Hp Hp'.
    apply in_map_iff in Hp as (f & <- & Hf).
    destruct (VF f Hf) as [E Sf].
    apply in_flat_map in Hp' as (d & Hd & Hp').
    apply filter_In in Hd as [Hd _].
    destruct (entrar_abiertos_bajo _ _ _ _ W N Hd Hp') as [_ [r E']].
    rewrite E in E'. apply append_cancel_l in E'. injection E' as ->.
    apply Sf, occurs_append. right. now left.
Qed.

Lemma utf8_raiz : utf8_valid "." = true.
Proof. reflexivity. Qed.

(** Over names that encode, the visit of a directory reached from [es]
    is a stretch of the run over [es], and what comes before it is made
    of whole records. *)
Lemma alcanza_tramo (es es' : listing) (top top' : string) :
  alcanza es top es' top' ->
  bien_formado es -> ruta_normal top ->
  nombres_utf8 es -> utf8_valid top = true ->
  exists a b,
    en_registros a
    /\ fst (os_walk loop_body (Dir es) top)
       = (a ++ fst (os_walk loop_body (Dir es') top') ++ b)%list.
Proof.
  induction 1 as [| es top d sub es' top' Hin Hx _ IH]; intros W N U V.
  - exists [], []. split; [constructor | now rewrite app_nil_r].
  - destruct (bien_formado_In _ _ _ W Hin) as [Vd Ws].
    destruct (nombres_utf8_In _ _ _ U Hin) as [Ud Us].
    destruct (IH Ws (join_ruta_normal _ _ N Vd) Us (utf8_valid_join _ _ V Ud))
      as (a & b & Ra & E).
    assert (Hd : In d (filter conservar (dirnames es))).
    { apply filter_In. split.
      - apply dirnames_In. now exists (Dir sub).
      - now apply conservar_no_excluido. }
    destruct (flat_map_In_split (fun d => fst (entrar es top d)) _ _ Hd)
      as (l1 & l2 & _ & F).
    rewrite (entrar_Dir _ top _ _ W Hin), E in F.
    rewrite (os_walk_trace _ _ U V). cbn [fst]. rewrite F.
    exists (EvScandir top
              :: flat_map (fun f => fst (procesar es top f)) (filenames es)
              ++ flat_map (fun d => fst (entrar es top d)) l1 ++ a)%list,
           (b ++ flat_map (fun d => fst (entrar es top d)) l2)%list.
    split.
    + constructor. apply en_registros_app.
      * apply en_registros_flat_map. intros; apply procesar_en_registros.
      * apply en_registros_app; [|exact Ra].
        apply en_registros_flat_map. intros; apply entrar_en_registros.
    + cbn [app]. f_equal. now rewrite <- !app_assoc.
Qed.

(** Over names that encode, the record of a selected file is a stretch
    of the visit of its directory. *)
Lemma archivo_tramo (es : listing) (top file : string) (r : lectura) :
  bien_formado es ->
  nombres_utf8 es -> utf8_valid top = true ->
  In (file, File r) es ->
  seleccionado file = true ->
  exists a b,
    en_registros a
    /\ fst (os_walk loop_body (Dir es) top)
       = (a ++ [EvFoutWrite (cabecera (join top file));
                EvOpenRead (join top file);
                EvFoutWrite (cuerpo_de (join top file) r)] ++ b)%list.
Proof.
  intros W U V H S.
  assert (Hf : In file (filenames es)) by (apply filenames_In; eauto).
  destruct (flat_map_In_split (fun f => fst (procesar es top f)) _ _ Hf)
    as (l1 & l2 & _ & F).
  assert (Vf : utf8_valid (join top file) = true)
    by (apply utf8_valid_join; [exact V | apply (nombres_utf8_In _ _ _ U H)]).
  rewrite (procesar_archivo es top file r S Vf (bien_formado_lookup _ _ _ W H)) in F.
  cbn [fst] in F. rewrite (os_walk_trace _ _ U V). cbn [fst]. rewrite F.
  exists (EvScandir top :: flat_map (fun f => fst (procesar es top f)) l1),
         (flat_map (fun f => fst (procesar es top f)) l2
          ++ flat_map (fun d => fst (entrar es top d))
               (filter conservar (dirnames es)))%list.
  split.
  - constructor. apply en_registros_flat_map. intros; apply procesar_en_registros.
  - cbn [app]. now rewrite <- !app_assoc.
Qed.

Lemma archivo_visitado_tramo (fs es : listing) (top file : string) (r : lectura) :
  bien_formado fs ->
  nombres_utf8 fs ->
  alcanza fs "." es top ->
  In (file, File r) es ->
  seleccionado file = true ->
  exists antes despues,
    en_registros antes
    /\ fst (exportar fs)
       = (antes
          ++ [EvFoutWrite (cabecera (join top file));
              EvOpenRead (join top file);
              EvFoutWrite (cuerpo_de (join top file) r)]
          ++ despues)%list.
Proof.
  intros W U A H S.
  destruct (alcanza_bien_formado _ _ _ _ A W raiz_normal) as [W' N'].
  destruct (alcanza_utf8 _ _ _ _ A U utf8_raiz) as [U' V'].
  destruct (alcanza_tramo _ _ _ _ A W raiz_normal U utf8_raiz) as (a & b & Ra & E).
  destruct (archivo_tramo es top file r W' U' V' H S) as (a' & b' & Ra' & E').
  exists (a ++ a')%list, (b' ++ b)%list. split.
  - now apply en_registros_app.
  - unfold exportar. rewrite E, E'. now rewrite <- !app_assoc.
Qed.

(** In a well-formed tree whose names encode, a selected file of a
    visited directory has exactly one record, the one its read gives. *)
Lemma un_registro (fs es : listing) (top file : string) (r : lectura) :
  bien_formado fs ->
  nombres_utf8 fs ->
  alcanza fs "." es top ->
  In (file, File r) es ->
  seleccionado file = true ->
  count_occ string_dec (map fst (registros (fst (exportar fs)))) (join top file) = 1
  /\ In (join top file, cuerpo_de (join top file) r) (registros (fst (exportar fs))).
Proof.
  intros W U A H S.
  destruct (archivo_visitado_tramo fs es top file r W U A H S)
    as (a & b & Ra & E).
  assert (K : In (join top file, cuerpo_de (join top file) r)
                 (registros (fst (exportar fs)))).
  { rewrite E, registros_app by exact Ra. apply in_or_app. right.
    cbn [app registros]. rewrite String.eqb_refl. now left. }
  split; [|exact K].
  assert (ND : NoDup (map fst (registros (fst (exportar fs))))).
  { rewrite registros_abiertos by apply os_walk_en_registros.
    apply abiertos_NoDup; auto using raiz_normal. }
  apply (proj1 (NoDup_count_occ' string_dec _) ND).
  apply in_map_iff. now exists (join top file, cuerpo_de (join top file) r).
Qed.

(** C3, as the script behaves.  In a tree whose names are those of a
    directory scan and are well-formed UTF-8, take a file that the walk
    visits (its directory is reached from the root through names that are
    not excluded), whose extension is in [extensiones] and whose read
    succeeds.  The run writes exactly one record with its path
    [join top file]: the header with that path, the opening of the file,
    then the text read, which is the bytes of the file decoded as UTF-8
    with the bytes that do not decode dropped and with CR LF and CR turned
    into LF.  That text is the content of the file itself when the
    content is well-formed UTF-8 without CR. *)
Theorem C3_one_record_per_readable_file
  (fs es : listing) (top file contenido : string) :
  bien_formado fs ->
  nombres_utf8 fs ->
  alcanza fs "." es top ->
  In (file, File (Leido contenido)) es ->
  seleccionado file = true ->
  count_occ string_dec (map fst (registros (fst (exportar fs)))) (join top file) = 1
  /\ In (join top file, read_text contenido) (registros (fst (exportar fs)))
  /\ documento fs
     = concat_all (map texto_de_registro (registros (fst (exportar fs))))
  /\ texto_de_registro (join top file, read_text contenido)
     = nl ++ nl ++ "===== " ++ join top file ++ " =====" ++ nl
       ++ read_text contenido
  /\ (exists antes despues,
        fst (exportar fs)
        = (antes
           ++ [EvFoutWrite (cabecera (join top file));
               EvOpenRead (join top file);
               EvFoutWrite (read_text contenido)]
           ++ despues)%list)
  /\ (utf8_valid contenido = true -> ~ occurs CR contenido ->
      read_text contenido = contenido).
Proof.
  intros W U A H S.
  destruct (un_registro fs es top file (Leido contenido) W U A H S) as [C I].
  destruct (archivo_visitado_tramo fs es top file (Leido contenido) W U A H S)
    as (a & b & _ & E).
  repeat split.
  - exact C.
  - exact I.
  - apply registros_written, os_walk_en_registros.
  - now exists a, b.
  - apply read_text_id.
Qed.

Lemma proyecto_bien_formado : bien_formado proyecto.
Proof.
  unfold proyecto.
  repeat (first [ apply bf_nil | apply bf_file | apply bf_dir ]);
    try (split; [discriminate | cbn; unfold sep; intuition discriminate]);
    cbn; intuition discriminate.
Defined.

Lemma proyecto_utf8 : nombres_utf8 proyecto.
Proof. unfold proyecto. repeat constructor. Defined.

Lemma proyecto_alcanza :
  alcanza proyecto "."
    [("AppTests", Dir [("t.swift", File (Leido "XCTAssert(true)"))]);
     ("a.swift", File (Leido "let a = 1"))]
    "./Sources".
Proof.
  eapply alc_baja with (d := "Sources").
  - right; left. reflexivity.
  - now apply conservar_no_excluido.
  - apply alc_aqui.
Defined.

Lemma C3_witness :
  count_occ string_dec (map fst (registros (fst (exportar proyecto))))
    "./Sources/a.swift" = 1
  /\ In ("./Sources/a.swift", "let a = 1") (registros (fst (exportar proyecto))).
Proof.
  pose proof (C3_one_record_per_readable_file proyecto _ "./Sources"
                "a.swift" "let a = 1"
                proyecto_bien_formado proyecto_utf8 proyecto_alcanza
                (or_intror (or_introl eq_refl)) eq_refl) as H.
  split; [exact (proj1 H) | exact (proj1 (proj2 H))].
Defined.

(** C3, as it is worded, fails three times.  The record of [a.md],
    whose content is [x CR LF y], holds [x LF y] and not the content
    verbatim.  The file whose name is not UTF-8, though selected and
    readable, gets no record: the write of its header raises and the run
    ends there.  And [config.json], selected and readable, gets no
    record because it lies in [.git], which the walk does not enter. *)
Lemma C3_counterexample :
  (seleccionado "a.md" = true
   /\ registros (fst (exportar con_crlf)) = [("./a.md", "x" ++ nl ++ "y")]
   /\ ~ In ("./a.md", "x" ++ String CR (String LF "y"))
          (registros (fst (exportar con_crlf))))
  /\ (seleccionado nombre_latin1 = true
      /\ registros (fst (exportar con_nombre_latin1)) = []
      /\ exists e, snd (exportar con_nombre_latin1) = Raises e)
  /\ (seleccionado "config.json" = true
      /\ In (".git", Dir [("config.json", File (Leido "{}"))]) proyecto
      /\ registros (fst (exportar proyecto))
         = [("./Sources/a.swift", "let a = 1")]).
Proof.
  split; [split; [reflexivity | split; [reflexivity|]] | split].
  - cbn. intros [E | []]. discriminate E.
  - split; [reflexivity | split; [reflexivity|]]. eexists. reflexivity.
  - split; [reflexivity | split; [now left | reflexivity]].
Qed.

(** ** The extension, in words *)

Lemma rfind_from_range (c : ascii) (s : string) (i last : Z) :
  rfind_from c s i last = last
  \/ (i <= rfind_from c s i last < i + Z.of_nat (String.length s))%Z.
Proof.
  revert i last. induction s as [|a s IH]; intros i last; [now left|].
  cbn [rfind_from String.length]. destruct (Ascii.eqb a c).
  - destruct (IH (i + 1)%Z i) as [-> | H]; right; lia.
  - destruct (IH (i + 1)%Z last) as [-> | H]; [now left | right; lia].
Qed.

Lemma get_drop (k : nat) (p : string) :
  k < String.length p ->
  exists a, String.get k p = Some a /\ drop k p = String a (drop (S k) p).
Proof.
  revert p. induction k as [|k IH]; intros [|a p] H; simpl in H; try lia.
  - exists a. split; [reflexivity | now destruct p].
  - destruct (IH p) as (b & G & D); [lia|].
    exists b. split; [exact G | exact D].
Qed.

Lemma splitext_loop_por_puntos (n : nat) (p : string) (j : Z) :
  forall k, n + k <= String.length p ->
  snd (splitext_loop n p (Z.of_nat k) j)
  = if hay_no_punto (take n (drop k p)) then drop (Z.to_nat j) p else EmptyString.
Proof.
  induction n as [|n IH]; intros k H; [reflexivity|].
  cbn [splitext_loop]. rewrite Nat2Z.id.
  destruct (get_drop k p) as (a & -> & ->); [lia|].
  cbn [take hay_no_punto]. destruct (Ascii.eqb a extsep); [|reflexivity].
  cbn [negb orb]. replace (Z.of_nat k + 1)%Z with (Z.of_nat (S k)) by lia.
  apply IH. lia.
Qed.

(** On a name without [/], [splitext] gives the extension as worded in
    [extension_por_puntos]. *)
Lemma splitext_por_puntos (name : string) :
  ~ occurs sep name -> snd (splitext name) = extension_por_puntos name.
Proof.
  intros H. unfold splitext, extension_por_puntos, rfind.
  rewrite (rfind_from_absent _ _ 0 (-1) H).
  destruct (rfind_from_range extsep name 0 (-1)) as [-> | R]; [reflexivity|].
  set (i := rfind_from extsep name 0 (-1)) in *.
  destruct (Z.gtb_spec i (-1)); [|lia].
  destruct (Z.leb_spec 0 i); [|lia]. cbn [andb].
  change (-1 + 1)%Z with (Z.of_nat 0). rewrite Z.sub_0_r.
  rewrite splitext_loop_por_puntos by lia. reflexivity.
Qed.

(** ** Selection *)

Lemma emite_seleccionado (es : listing) (root file : string) :
  emite es root file
  <-> seleccionado file = true /\ utf8_valid (join root file) = true.
Proof.
  unfold emite.
  destruct (procesar_casos es root file)
    as [(S & ->) | [(S & V & e & ->) | (S & V & c & ->)]]; cbn [fst ret In].
  - split; [intros [] | intros [K _]; congruence].
  - split; [intros [] | intros [_ K]; congruence].
  - split; [auto | now left].
Qed.

(** C2, as the script behaves.  The extension of a name is the second
    part of [os.path.splitext]: the name from its last dot on, the dot
    included, when a character other than a dot comes before that dot,
    and the empty string otherwise.  For a file of a directory that the
    walk visits, in a tree whose names are those of a directory scan and
    are well-formed UTF-8, the run opens the file and writes its record
    exactly when that extension is one of [extensiones]; membership is
    equality of strings, so it is exact and case-sensitive.  When it is
    not a member, visiting the file writes nothing. *)
Theorem C2_record_iff_extension_listed
  (fs es : listing) (top file : string) :
  bien_formado fs ->
  nombres_utf8 fs ->
  alcanza fs "." es top ->
  In file (filenames es) ->
  snd (splitext file) = extension_por_puntos file
  /\ (In (join top file) (abiertos (fst (exportar fs)))
      <-> In (snd (splitext file)) extensiones)
  /\ (In (join top file) (map fst (registros (fst (exportar fs))))
      <-> In (snd (splitext file)) extensiones)
  /\ (emite es top file <-> In (snd (splitext file)) extensiones)
  /\ (~ In (snd (splitext file)) extensiones -> procesar es top file = ret tt).
Proof.
  intros W U A Hf.
  destruct (alcanza_bien_formado _ _ _ _ A W raiz_normal) as [W' N'].
  destruct (alcanza_utf8 _ _ _ _ A U utf8_raiz) as [U' V'].
  assert (V : nombre_valido file).
  { apply filenames_In in Hf as [r Hf]. apply (bien_formado_In _ _ _ W' Hf). }
  assert (Vf : utf8_valid (join top file) = true)
    by (apply utf8_valid_join; [exact V' | now apply (nombres_utf8_filenames es)]).
  assert (M : seleccionado file = true <-> In (snd (splitext file)) extensiones)
    by apply mem_In.
  assert (O : In (join top file) (abiertos (fst (exportar fs)))
              <-> In (snd (splitext file)) extensiones).
  { rewrite <- M. split.
    - intros H. unfold exportar in H.
      apply abiertos_alcanza in H
        as (es0 & es1 & top1 & f1 & [= <-] & A1 & Hf1 & S1 & E).
      destruct (alcanza_bien_formado _ _ _ _ A1 W raiz_normal) as [W1 N1].
      assert (V1 : nombre_valido f1).
      { apply filenames_In in Hf1 as [r Hf1].
        apply (bien_formado_In _ _ _ W1 Hf1). }
      rewrite (proj1 (join_normal _ _ N' V)),
              (proj1 (join_normal _ _ N1 V1)) in E.
      destruct (ultimo_componente _ _ _ _ (proj2 V) (proj2 V1) E) as [_ ->].
      exact S1.
    - intros S. apply filenames_In in Hf as [r Hf].
      destruct (archivo_visitado_tramo fs es top file r W U A Hf S)
        as (a & b & _ & E).
      rewrite E, !abiertos_app. apply in_or_app. right.
      apply in_or_app. left. cbn. now left. }
  split; [apply splitext_por_puntos, V|]. split; [exact O|]. split; [|split].
  - rewrite registros_abiertos by apply os_walk_en_registros. exact O.
  - rewrite <- M, emite_seleccionado. tauto.
  - intros H. apply procesar_no_seleccionado.
    destruct (seleccionado file) eqn:S; [|reflexivity].
    elim H. now apply M.
Qed.

Lemma C2_witness :
  In "./Sources/a.swift" (abiertos (fst (exportar proyecto)))
  <-> In (snd (splitext "a.swift")) extensiones.
Proof.
  exact (proj1 (proj2
    (C2_record_iff_extension_listed proyecto _ "./Sources" "a.swift"
       proyecto_bien_formado proyecto_utf8 proyecto_alcanza
       (or_introl eq_refl)))).
Defined.

(** C2, as it is worded, fails.  In the directory [con_punto_inicial]:
    read as the text from the last dot on, the extension of [.md] is
    [.md], which is in the list, yet no record is written for it; read
    as the text after the last dot, the extension of [b.md] is [md],
    which is not in the list, yet its record is written.  And in the
    directory [con_nombre_latin1] the first file has a listed extension
    and no record: its name is not UTF-8, the write of its header raises
    and nothing is written. *)
Lemma C2_counterexample :
  ~ (forall file, In file (filenames con_punto_inicial) ->
       (emite con_punto_inicial "." file
        <-> In (desde_ultimo_punto file) extensiones))
  /\ ~ (forall file, In file (filenames con_punto_inicial) ->
          (emite con_punto_inicial "." file
           <-> In (tras_ultimo_punto file) extensiones))
  /\ (In nombre_latin1 (filenames con_nombre_latin1)
      /\ In (snd (splitext nombre_latin1)) extensiones
      /\ ~ emite con_nombre_latin1 "." nombre_latin1
      /\ documento con_nombre_latin1 = EmptyString).
Proof.
  split; [|split].
  - intros H. destruct (H ".md" (or_introl eq_refl)) as [_ K].
    assert (L : In (desde_ultimo_punto ".md") extensiones) by (cbn; tauto).
    apply K in L. exact L.
  - intros H. destruct (H "b.md" (or_intror (or_introl eq_refl))) as [K _].
    assert (L : emite con_punto_inicial "." "b.md") by (now left).
    apply K in L. cbn in L. intuition discriminate.
  - split; [now left|]. split; [cbn; tauto|]. split; [|reflexivity].
    intros H. exact H.
Qed.

(** ** The output file *)

Lemma crear_None (name : string) (fs : listing) :
  crear name fs = None ->
  exists c, lookup name fs = Some c /\ is_dir c = true.
Proof.
  induction fs as [|[n c] fs IH]; cbn [crear lookup]; [discriminate|].
  destruct (n =? name).
  - destruct c as [r | sub |]; [discriminate | |]; intros _; eexists; eauto.
  - destruct (crear name fs); [discriminate | auto].
Qed.

Lemma crear_is_dir (name : string) (fs : listing) (c : node) :
  lookup name fs = Some c -> is_dir c = true -> crear name fs = None.
Proof.
  induction fs as [|[n c0] fs IH]; cbn [crear lookup]; [discriminate|].
  destruct (n =? name).
  - intros [= ->] D. now destruct c.
  - intros H D. now rewrite (IH H D).
Qed.

Lemma crear_guardar (name texto : string) (fs fs0 : listing) :
  crear name fs = Some fs0 ->
  crear name (guardar name texto fs0) = Some fs0
  /\ lookup name (guardar name texto fs0) = Some (File (Leido texto)).
Proof.
  revert fs0. induction fs as [|[n c] fs IH]; intros fs0; cbn [crear].
  - intros [= <-]. cbn. rewrite String.eqb_refl. cbn.
    now rewrite String.eqb_refl.
  - destruct (n =? name) eqn:E.
    + destruct c as [r | sub |]; try discriminate. intros [= <-].
      cbn. rewrite E. cbn. now rewrite E.
    + destruct (crear name fs) as [fs'|]; [|discriminate].
      intros [= <-]. destruct (IH fs' eq_refl) as [C L].
      cbn. rewrite E. cbn. now rewrite E, C.
Qed.

Lemma crear_utf8 (name : string) (fs fs0 : listing) :
  utf8_valid name = true -> nombres_utf8 fs ->
  crear name fs = Some fs0 -> nombres_utf8 fs0.
Proof.
  intros V N. revert fs0.
  induction N as [| n r es Vn Ne IH | n sub es Vn Ns _ Ne IH | n es Vn Ne IH];
    intros fs0; cbn [crear].
  - intros [= <-]. apply nu_file; [exact V | apply nu_nil].
  - destruct (n =? name).
    + intros [= <-]. now apply nu_file.
    + destruct (crear name es) as [fs'|]; [|discriminate].
      intros [= <-]. apply nu_file; auto.
  - destruct (n =? name); [discriminate|].
    destruct (crear name es) as [fs'|]; [|discriminate].
    intros [= <-]. apply nu_dir; auto.
  - destruct (n =? name); [discriminate|].
    destruct (crear name es) as [fs'|]; [|discriminate].
    intros [= <-]. apply nu_link; auto.
Qed.

Lemma sin_crear (name : string) (fs fs0 : listing) :
  crear name fs = Some fs0 -> sin name fs0 = sin name fs.
Proof.
  unfold sin. revert fs0. induction fs as [|[n c] fs IH]; intros fs0; cbn [crear].
  - intros [= <-]. cbn. now rewrite String.eqb_refl.
  - destruct (n =? name) eqn:E.
    + destruct c as [r | sub |]; try discriminate. intros [= <-].
      cbn. now rewrite E.
    + destruct (crear name fs) as [fs'|]; [|discriminate].
      intros [= <-]. cbn. rewrite E. cbn. now rewrite (IH fs' eq_refl).
Qed.

Lemma sin_guardar (name texto : string) (fs : listing) :
  sin name (guardar name texto fs) = sin name fs.
Proof.
  unfold sin. induction fs as [|[n c] fs IH]; [reflexivity|].
  cbn [guardar]. destruct (n =? name) eqn:E; cbn; rewrite E; cbn;
    [reflexivity | now rewrite IH].
Qed.

(** The script once the output file is created. *)
Lemma programa_creado (fs fs0 : listing) :
  crear archivo_salida fs = Some fs0 ->
  programa fs
  = (EvOpenWrite archivo_salida :: fst (exportar fs0),
     match snd (exportar fs0) with
     | Returns _ => Returns (guardar archivo_salida (documento fs0) fs0)
     | Raises e => Raises e
     end).
Proof.
  intros C. unfold programa, documento. rewrite C.
  now destruct (exportar fs0) as [t r].
Qed.

Lemma programa_eq (fs fs0 : listing) :
  nombres_utf8 fs ->
  crear archivo_salida fs = Some fs0 ->
  programa fs
  = (EvOpenWrite archivo_salida :: fst (exportar fs0),
     Returns (guardar archivo_salida (documento fs0) fs0)).
Proof.
  intros N C. rewrite (programa_creado _ _ C). unfold exportar.
  rewrite os_walk_returns; [reflexivity | | reflexivity].
  exact (crear_utf8 archivo_salida fs fs0 eq_refl N C).
Qed.

Lemma deja_creado (fs fs0 : listing) :
  crear archivo_salida fs = Some fs0 ->
  deja fs = guardar archivo_salida (documento fs0) fs0.
Proof. intros C. unfold deja, documento. now rewrite C. Qed.

(** C4.  When the header of a selected file has been written (its path
    encodes) and reading the file raises, the record of the file is its
    header followed by the note [[Error leyendo <ruta>: <e>]] and a line
    feed, which holds the path and the text of the exception, and the
    visit of the file returns.  The loop then goes on with the files
    that remain, as it would without this one.  Whatever the reads give,
    the walk of a tree whose names encode returns, and so does the
    script when the output file can be created. *)
Theorem C4_read_failure_annotated
  (es : listing) (root file mensaje : string) :
  seleccionado file = true ->
  utf8_valid (join root file) = true ->
  snd (fin_read es (join root file) file) = Raises mensaje ->
  procesar es root file
  = ([EvFoutWrite (cabecera (join root file));
      EvOpenRead (join root file);
      EvFoutWrite (anotacion (join root file) mensaje)], Returns tt)
  /\ anotacion (join root file) mensaje
     = "[Error leyendo " ++ join root file ++ ": " ++ mensaje ++ "]" ++ nl
  /\ (forall resto,
        for_each (file :: resto) (procesar es root)
        = ((fst (procesar es root file)
            ++ fst (for_each resto (procesar es root)))%list,
           snd (for_each resto (procesar es root))))
  /\ (forall n top,
        nombres_utf8_nodo n -> utf8_valid top = true ->
        snd (os_walk loop_body n top) = Returns tt)
  /\ (forall fs fs1,
        nombres_utf8 fs ->
        crear archivo_salida fs = Some fs1 ->
        programa fs
        = (EvOpenWrite archivo_salida :: fst (exportar fs1),
           Returns (guardar archivo_salida (documento fs1) fs1))).
Proof.
  intros S V E.
  destruct (procesar_seleccionado es root file S V) as (c & P & _ & K).
  rewrite (K mensaje E) in P.
  split; [exact P|]. split; [reflexivity|]. split; [|split].
  - intros resto. cbn [for_each]. rewrite P. cbn [bind fst].
    now destruct (for_each resto (procesar es root)).
  - intros n top. apply os_walk_returns.
  - apply programa_eq.
Qed.

Lemma C4_witness :
  let es := [("locked.json", File (Fallo "[Errno 13] Permission denied: './locked.json'"));
             ("b.md", File (Leido "hello"))] in
  written (fst (exportar es))
  = nl ++ nl ++ "===== ./locked.json =====" ++ nl
    ++ "[Error leyendo ./locked.json: [Errno 13] Permission denied: './locked.json']" ++ nl
    ++ nl ++ nl ++ "===== ./b.md =====" ++ nl ++ "hello"
  /\ procesar es "." "locked.json"
     = ([EvFoutWrite (cabecera "./locked.json");
         EvOpenRead "./locked.json";
         EvFoutWrite (anotacion "./locked.json"
                        "[Errno 13] Permission denied: './locked.json'")],
        Returns tt).
Proof.
  intros es. split; [reflexivity|].
  exact (proj1 (C4_read_failure_annotated es "." "locked.json"
                  "[Errno 13] Permission denied: './locked.json'"
                  eq_refl eq_refl eq_refl)).
Defined.

(** C7.  Let [deja fs] be the directory a run leaves, whether it returns
    or raises.  A second run, on [deja fs], makes the same system calls,
    writes the same bytes, ends the same way and leaves [deja fs] as it
    is; in particular the output file holds the same document after both
    runs.  When the names of the tree encode and the root holds no
    directory called [proyecto_swift.txt], both runs return. *)
Theorem C7_second_run_same_document (fs : listing) :
  programa (deja fs) = programa fs
  /\ deja (deja fs) = deja fs
  /\ (forall fs1, snd (programa fs) = Returns fs1 -> fs1 = deja fs)
  /\ (forall fs0,
        crear archivo_salida fs = Some fs0 ->
        lookup archivo_salida (deja fs)
        = Some (File (Leido (written (fst (programa fs))))))
  /\ (nombres_utf8 fs ->
      (forall c, lookup archivo_salida fs = Some c -> is_dir c = false) ->
      exists fs1, snd (programa fs) = Returns fs1).
Proof.
  destruct (crear archivo_salida fs) as [fs0|] eqn:C.
  - destruct (crear_guardar archivo_salida (documento fs0) fs fs0 C) as [C' L].
    rewrite (deja_creado _ _ C).
    split; [|split; [|split; [|split]]].
    + now rewrite (programa_creado _ _ C'), (programa_creado _ _ C).
    + now apply deja_creado.
    + intros fs1. rewrite (programa_creado _ _ C). cbn [snd].
      destruct (snd (exportar fs0)); [|discriminate]. now intros [= <-].
    + intros fs0' [= <-]. rewrite (programa_creado _ _ C). exact L.
    + intros N _. rewrite (programa_eq _ _ N C). cbn [snd]. eexists. reflexivity.
  - assert (D : deja fs = fs) by (unfold deja; now rewrite C).
    rewrite !D.
    split; [reflexivity|]. split; [reflexivity|].
    unfold programa. rewrite C. cbn [snd].
    split; [discriminate|]. split; [discriminate|].
    intros _ H. apply crear_None in C as (c & L & Dc).
    rewrite (H c L) in Dc. discriminate Dc.
Qed.

Lemma C7_witness :
  programa (deja escenario) = programa escenario
  /\ written (fst (programa (deja escenario)))
     = nl ++ nl ++ "===== ./b.md =====" ++ nl ++ "hello"
  /\ exists fs1, snd (programa escenario) = Returns fs1.
Proof.
  pose proof (C7_second_run_same_document escenario) as (E & _ & _ & _ & R).
  split; [exact E|]. split; [reflexivity|]. apply R.
  - repeat (first [ apply nu_nil | apply nu_file | apply nu_dir ]); reflexivity.
  - intros c L. discriminate L.
Defined.

Lemma exportar_no_abre_para_escribir (n : node) (top : string) :
  Forall (fun e => abre_para_escribir e = None) (fst (os_walk loop_body n top)).
Proof.
  apply os_walk_trace_prop.
  - constructor.
  - intros a b Ha Hb. apply Forall_app. now split.
  - repeat constructor.
  - intros es root f.
    destruct (procesar_casos es root f)
      as [[_ ->] | [(_ & _ & e & ->) | (_ & _ & c & ->)]]; repeat constructor.
Qed.

(** C8.  The one file a run opens for writing is [proyecto_swift.txt]:
    every other system call of the run is a directory scan, an opening
    for reading or a write into that file.  When the run ends, the root
    holds the entries it held before, with the trees below them, in the
    same order; only the entry [proyecto_swift.txt] is new or changed. *)
Theorem C8_only_output_file_written (fs : listing) :
  Forall (fun e => forall p, abre_para_escribir e = Some p -> p = archivo_salida)
         (fst (programa fs))
  /\ (forall fs1, snd (programa fs) = Returns fs1 ->
        sin archivo_salida fs1 = sin archivo_salida fs).
Proof.
  destruct (crear archivo_salida fs) as [fs0|] eqn:C.
  - rewrite (programa_creado fs fs0 C). cbn [fst snd]. split.
    + constructor; [now intros p [= <-]|].
      eapply Forall_impl; [|apply exportar_no_abre_para_escribir].
      intros e -> p. discriminate.
    + intros fs1. destruct (snd (exportar fs0)); [|discriminate].
      intros [= <-]. rewrite sin_guardar. now apply sin_crear.
  - unfold programa. rewrite C. cbn [fst snd]. split.
    + constructor; [now intros p [= <-] | constructor].
    + discriminate.
Qed.

(** ** Checks on concrete names *)

Example splitext_b_md : splitext "b.md" = ("b", ".md").
Proof. reflexivity. Qed.

Example splitext_dot_md : splitext ".md" = (".md", EmptyString).
Proof. reflexivity. Qed.

Example splitext_dots : splitext "..a.b" = ("..a", ".b").
Proof. reflexivity. Qed.

Example splitext_tar_gz : splitext "a.tar.json" = ("a.tar", ".json").
Proof. reflexivity. Qed.

Example join_root : join "." "b.md" = "./b.md".
Proof. reflexivity. Qed.

Example conservar_ej :
  map conservar ["Sources"; "Pods"; ".github"; "MyTests"; "latest"; "Build"]
  = [true; false; false; false; false; true].
Proof. reflexivity. Qed.

Example seleccionado_ej :
  map seleccionado ["a.swift"; "a.Swift"; "README.MD"; "a.md"; "swift"; ".swift"; "a.py"]
  = [true; false; false; true; false; false; false].
Proof. reflexivity. Qed.

Example documento_proyecto :
  documento proyecto
  = nl ++ nl ++ "===== ./Sources/a.swift =====" ++ nl ++ "let a = 1".
Proof. reflexivity. Qed.

(** * Further properties of the script *)

(** ** Which names are selected *)

Lemma rfind_from_append (c : ascii) (a b : string) (i last : Z) :
  rfind_from c (a ++ b) i last
  = rfind_from c b (i + Z.of_nat (String.length a)) (rfind_from c a i last).
Proof.
  revert i last. induction a as [|x a IH]; intros i last.
  - cbn. now rewrite Z.add_0_r.
  - cbn [append rfind_from String.length]. rewrite IH. f_equal. lia.
Qed.

Lemma take_length_append (a b : string) : take (String.length a) (a ++ b) = a.
Proof. induction a as [|x a IH]; simpl; [now destruct b | now rewrite IH]. Qed.

Lemma extensiones_forma (e : string) :
  In e extensiones -> exists rest, e = String extsep rest /\ ~ occurs extsep rest.
Proof.
  intros H. cbn in H.
  repeat (destruct H as [<- | H];
          [eexists; split; [reflexivity | cbn; unfold extsep; intuition discriminate]|]).
  destruct H.
Qed.

(** A name without [/] is selected exactly when it is a stem followed by
    one of [extensiones], where the stem holds a character other than a
    dot.  Nothing else of the name matters: a file whose name begins with
    a dot or holds [test] is selected like any other. *)
Theorem X_seleccionado_por_forma (name : string) :
  ~ occurs sep name ->
  (seleccionado name = true
   <-> exists stem e,
         name = stem ++ e /\ In e extensiones /\ hay_no_punto stem = true).
Proof.
  intros H. unfold seleccionado. rewrite mem_In, splitext_por_puntos by assumption.
  split.
  - unfold extension_por_puntos. intros K.
    destruct (_ && _) eqn:C.
    + apply andb_prop in C as [_ C].
      eexists _, _. split; [symmetry; apply take_drop|]. split; eassumption.
    + cbn in K. intuition discriminate.
  - intros (stem & e & -> & He & Hs).
    destruct (extensiones_forma _ He) as (rest & -> & Hr).
    unfold extension_por_puntos, rfind. rewrite rfind_from_append.
    cbn [rfind_from]. change (Ascii.eqb extsep extsep) with true. cbv iota.
    rewrite rfind_from_absent by assumption.
    rewrite Z.add_0_l, Nat2Z.id, take_length_append, Hs, drop_length_append.
    destruct (Z.leb_spec 0 (Z.of_nat (String.length stem))); [exact He | lia].
Qed.

Lemma X_seleccionado_por_forma_witness :
  seleccionado ".AppTests.swift" = true
  <-> exists stem e,
        ".AppTests.swift" = stem ++ e /\ In e extensiones
        /\ hay_no_punto stem = true.
Proof.
  apply (X_seleccionado_por_forma ".AppTests.swift").
  cbn. unfold sep. intuition discriminate.
Defined.

(** ** The exclusion set *)

(** The names [.git] and [.build] of [excluir_directorios] never decide:
    the rule on the leading dot already rejects them, so the filter is
    the same with the set reduced to [Pods], [DerivedData] and [build]. *)
Theorem X_excluir_con_punto_redundante (d : string) :
  conservar d
  = negb (mem d excluir_sin_punto)
    && negb (startswith d ".")
    && negb (contains "test" (lower d)).
Proof.
  unfold conservar, mem, excluir_directorios, excluir_sin_punto.
  cbn [existsb].
  destruct (String.eqb_spec d ".git") as [-> | _]; [reflexivity|].
  destruct (String.eqb_spec d ".build") as [-> | _]; [reflexivity|].
  rewrite !orb_false_r. reflexivity.
Qed.

(** ** One record for each selected file, whatever its read gives *)

(** In a tree whose names are those of a directory scan and are
    well-formed UTF-8, every selected file of a visited directory has
    exactly one record: its path is the path of one record of the run,
    the body of that record is the text read, or the note when the read
    raised, and the run holds the header, the opening of the file and the
    write of the body in a row.  A failed read neither drops the record
    nor repeats it. *)
Theorem X_un_registro_por_archivo
  (fs es : listing) (top file : string) (r : lectura) :
  bien_formado fs ->
  nombres_utf8 fs ->
  alcanza fs "." es top ->
  In (file, File r) es ->
  seleccionado file = true ->
  count_occ string_dec (map fst (registros (fst (exportar fs)))) (join top file) = 1
  /\ In (join top file, cuerpo_de (join top file) r) (registros (fst (exportar fs)))
  /\ exists antes despues,
       fst (exportar fs)
       = (antes
          ++ [EvFoutWrite (cabecera (join top file));
              EvOpenRead (join top file);
              EvFoutWrite (cuerpo_de (join top file) r)]
          ++ despues)%list.
Proof.
  intros W U A H S.
  destruct (un_registro fs es top file r W U A H S) as [C I].
  destruct (archivo_visitado_tramo fs es top file r W U A H S) as (a & b & _ & E).
  split; [exact C|]. split; [exact I|]. now exists a, b.
Qed.

Lemma X_un_registro_por_archivo_witness :
  let fs := [("Sources", Dir [("locked.json", File (Fallo "[Errno 13] Permission denied"))])] in
  count_occ string_dec (map fst (registros (fst (exportar fs))))
            "./Sources/locked.json" = 1
  /\ In ("./Sources/locked.json",
         anotacion "./Sources/locked.json" "[Errno 13] Permission denied")
        (registros (fst (exportar fs))).
Proof.
  intros fs.
  refine (let K := X_un_registro_por_archivo fs
                   [("locked.json", File (Fallo "[Errno 13] Permission denied"))]
                   "./Sources" "locked.json" (Fallo "[Errno 13] Permission denied")
                   _ _ _ (or_introl eq_refl) eq_refl in
          conj (proj1 K) (proj1 (proj2 K))).
  - unfold fs.
    repeat (first [ apply bf_nil | apply bf_file | apply bf_dir ]);
      try (split; [discriminate | cbn; unfold sep; intuition discriminate]);
      cbn; intuition discriminate.
  - unfold fs. repeat (first [ apply nu_nil | apply nu_file | apply nu_dir ]);
      reflexivity.
  - eapply alc_baja with (d := "Sources").
    + left. reflexivity.
    + now apply conservar_no_excluido.
    + apply alc_aqui.
Defined.

(** ** The empty document *)

Lemma append_empty (a b : string) :
  a ++ b = EmptyString -> a = EmptyString /\ b = EmptyString.
Proof. destruct a; cbn; [auto | discriminate]. Qed.

Lemma concat_all_empty (l : list string) :
  (forall x, In x l -> x = EmptyString) -> concat_all l = EmptyString.
Proof.
  induction l as [|x l IH]; intros H; [reflexivity|].
  cbn [concat_all fold_right]. rewrite (H x) by now left.
  apply IH. intros y Hy. apply H. now right.
Qed.

Lemma sin_seleccion_vacio (n : node) :
  forall top,
  nombres_utf8_nodo n -> utf8_valid top = true ->
  (forall es, n = Dir es ->
     forall es' top' f,
       alcanza es top es' top' -> In f (filenames es') -> seleccionado f = false) ->
  written (fst (os_walk loop_body n top)) = EmptyString.
Proof.
  induction n as [r | es IH |] using node_tree_ind; intros top U V H;
    try reflexivity.
  specialize (H es eq_refl). cbn in U.
  rewrite (os_walk_trace _ _ U V). cbn [fst written].
  rewrite written_app, !written_flat_map.
  rewrite (concat_all_empty (map _ (filenames es))).
  - apply concat_all_empty. intros x Hx.
    apply in_map_iff in Hx as (d & <- & Hd). unfold entrar.
    destruct (lookup d es) as [c|] eqn:E; [|reflexivity].
    pose proof (lookup_In _ _ _ E) as Hin.
    destruct (nombres_utf8_In _ _ _ U Hin) as [Vd Uc].
    apply (IH _ _ Hin); [exact Uc | now apply utf8_valid_join |].
    intros sub -> es' top' f A Hf.
    apply (H es' top' f); [|exact Hf].
    apply alc_baja with d sub; [exact Hin | | exact A].
    apply filter_In in Hd as [_ Hd]. now apply conservar_no_excluido.
  - intros x Hx. apply in_map_iff in Hx as (f & <- & Hf).
    rewrite procesar_no_seleccionado; [reflexivity|].
    apply (H es top f); [constructor | exact Hf].
Qed.

(** In a tree whose names are those of a directory scan and are
    well-formed UTF-8, the document is empty exactly when no file of a
    visited directory is selected; the walk returns all the same. *)
Theorem X_documento_vacio (fs : listing) :
  bien_formado fs ->
  nombres_utf8 fs ->
  (documento fs = EmptyString
   <-> forall es top f,
         alcanza fs "." es top -> In f (filenames es) -> seleccionado f = false)
  /\ snd (exportar fs) = Returns tt.
Proof.
  intros W U. split; [|now apply os_walk_returns]. split.
  - intros D es top f A Hf.
    destruct (seleccionado f) eqn:S; [|reflexivity].
    apply filenames_In in Hf as [r Hf].
    destruct (archivo_visitado_tramo fs es top f r W U A Hf S) as (a & b & _ & E).
    unfold documento in D. rewrite E, written_app in D.
    apply append_empty in D as [_ D]. discriminate D.
  - intros H. apply sin_seleccion_vacio; [exact U | reflexivity |].
    intros es [= <-]. exact H.
Qed.

Lemma X_documento_vacio_witness :
  documento [("a.py", File (Leido "print(1)")); ("Sources", Dir [("b.txt", File (Leido "x"))])]
  = EmptyString
  <-> forall es top f,
        alcanza [("a.py", File (Leido "print(1)"));
                 ("Sources", Dir [("b.txt", File (Leido "x"))])] "." es top ->
        In f (filenames es) -> seleccionado f = false.
Proof.
  refine (proj1 (X_documento_vacio _ _ _)).
  - repeat (first [ apply bf_nil | apply bf_file | apply bf_dir ]);
      try (split; [discriminate | cbn; unfold sep; intuition discriminate]);
      cbn; intuition discriminate.
  - repeat (first [ apply nu_nil | apply nu_file | apply nu_dir ]); reflexivity.
Defined.

(** ** Directories are scanned once *)

Lemma escaneados_os_walk (es : listing) (top : string) :
  nombres_utf8 es -> utf8_valid top = true ->
  escaneados (fst (os_walk loop_body (Dir es) top))
  = top :: flat_map (fun d => escaneados (fst (entrar es top d)))
             (filter conservar (dirnames es)).
Proof.
  intros U V. rewrite (os_walk_trace _ _ U V). cbn [fst escaneados].
  rewrite escaneados_app, !escaneados_flat_map. f_equal.
  replace (flat_map (fun x => escaneados (fst (procesar es top x))) (filenames es))
    with (@nil string); [reflexivity|].
  induction (filenames es) as [|f l IH]; [reflexivity|].
  cbn [flat_map]. now rewrite escaneados_procesar.
Qed.

Lemma escaneados_bajo (es : listing) (top p : string) :
  bien_formado es -> ruta_normal top ->
  In p (escaneados (fst (os_walk loop_body (Dir es) top))) ->
  p = top \/ exists r, p = top ++ String sep r.
Proof.
  intros W N H.
  apply escaneados_alcanza in H as (es0 & es' & [= <-] & A).
  exact (alcanza_bajo _ _ _ _ A W N).
Qed.

Lemma entrar_escaneados_forma (es : listing) (top d p : string) :
  bien_formado es -> ruta_normal top ->
  In d (dirnames es) ->
  In p (escaneados (fst (entrar es top d))) ->
  nombre_valido d
  /\ exists x, p = top ++ String sep (d ++ x)
               /\ (x = EmptyString \/ exists r, x = String sep r).
Proof.
  intros W N Hd Hp. apply dirnames_In in Hd as (c & Hd & _).
  destruct (bien_formado_In _ _ _ W Hd) as [V Ws]. split; [assumption|].
  unfold entrar in Hp. rewrite (bien_formado_lookup _ _ _ W Hd) in Hp.
  destruct c as [r | sub |]; try destruct Hp.
  destruct (join_normal _ _ N V) as [E N']. rewrite E in Hp.
  apply escaneados_bajo in Hp as [-> | [r ->]]; auto.
  - exists EmptyString. rewrite append_empty_r. auto.
  - exists (String sep r). rewrite append_assoc. eauto.
Qed.

(** The component that follows a directory in a path is determined by the
    path. *)
Lemma componente_siguiente (d d' x x' : string) :
  ~ occurs sep d -> ~ occurs sep d' ->
  (x = EmptyString \/ exists r, x = String sep r) ->
  (x' = EmptyString \/ exists r, x' = String sep r) ->
  d ++ x = d' ++ x' -> d = d'.
Proof.
  revert d'. induction d as [|c d IH]; intros [|c' d'] Hd Hd' Hx Hx' E;
    cbn [append] in E.
  - reflexivity.
  - destruct Hx as [-> | [r ->]]; [discriminate E|].
    injection E as <- _. elim Hd'. now left.
  - destruct Hx' as [-> | [r ->]]; [discriminate E|].
    injection E as -> _. elim Hd. now left.
  - injection E as -> E. f_equal. apply (IH d'); simpl in *; tauto.
Qed.

Lemma append_no_fijo (a : string) (c : ascii) (b : string) :
  a ++ String c b <> a.
Proof.
  intros E. rewrite <- (append_empty_r a) in E at 2.
  apply append_cancel_l in E. discriminate E.
Qed.

Lemma escaneados_NoDup (n : node) :
  forall top, bien_formado_nodo n -> ruta_normal top ->
  nombres_utf8_nodo n -> utf8_valid top = true ->
  NoDup (escaneados (fst (os_walk loop_body n top))).
Proof.
  induction n as [r | es IH |] using node_tree_ind; intros top W N U V;
    try constructor.
  cbn in W, U. rewrite (escaneados_os_walk _ _ U V).
  destruct (bien_formado_NoDup _ W) as [_ NDd].
  constructor.
  - intros H. apply in_flat_map in H as (d & Hd & H).
    apply filter_In in Hd as [Hd _].
    destruct (entrar_escaneados_forma es top d top W N Hd H) as [_ (x & E & _)].
    symmetry in E. now apply append_no_fijo in E.
  - apply NoDup_flat_map; [| |now apply NoDup_filter].
    + intros d Hd. apply filter_In in Hd as [Hd _].
      apply dirnames_In in Hd as (c & Hd & _).
      unfold entrar. rewrite (bien_formado_lookup _ _ _ W Hd).
      destruct (bien_formado_In _ _ _ W Hd) as [Vd Ws].
      destruct (nombres_utf8_In _ _ _ U Hd) as [Ud Us].
      apply (IH _ _ Hd); [exact Ws | now apply join_ruta_normal | exact Us |].
      now apply utf8_valid_join.
    + intros d d' p Hd Hd' Hp Hp'.
      apply filter_In in Hd as [Hd _]. apply filter_In in Hd' as [Hd' _].
      destruct (entrar_escaneados_forma es top d p W N Hd Hp)
        as [[_ Vd] (x & E & Hx)].
      destruct (entrar_escaneados_forma es top d' p W N Hd' Hp')
        as [[_ Vd'] (x' & E' & Hx')].
      rewrite E in E'. apply append_cancel_l in E'. injection E' as E'.
      exact (componente_siguiente d d' x x' Vd Vd' Hx Hx' E').
Qed.

(** In a tree whose names are those of a directory scan and are
    well-formed UTF-8, the directories scanned are exactly those reached
    from the root through names of directories that are not excluded (a
    link to a directory is not a step), and each of them is scanned
    once. *)
Theorem X_directorio_escaneado_una_vez (fs : listing) (p : string) :
  bien_formado fs ->
  nombres_utf8 fs ->
  (In p (escaneados (fst (exportar fs))) <-> exists es, alcanza fs "." es p)
  /\ ((exists es, alcanza fs "." es p) ->
      count_occ string_dec (escaneados (fst (exportar fs))) p = 1).
Proof.
  intros W U.
  assert (K : (exists es, alcanza fs "." es p) ->
              In p (escaneados (fst (exportar fs)))).
  { intros [es A].
    destruct (alcanza_tramo _ _ _ _ A W raiz_normal U utf8_raiz) as (a & b & _ & E).
    destruct (alcanza_utf8 _ _ _ _ A U utf8_raiz) as [U' V'].
    unfold exportar. rewrite E, (os_walk_trace _ _ U' V'). cbn [fst].
    rewrite !escaneados_app. apply in_or_app. right.
    apply in_or_app. left. now left. }
  split; [split; [|exact K]|].
  - intros H. apply escaneados_alcanza in H as (es0 & es & [= <-] & A).
    now exists es.
  - intros H. apply K in H. clear K. revert p H. apply NoDup_count_occ'.
    apply escaneados_NoDup;
      [exact W | exact raiz_normal | exact U | exact utf8_raiz].
Qed.

Lemma X_directorio_escaneado_una_vez_witness :
  count_occ string_dec (escaneados (fst (exportar proyecto))) "./Sources" = 1.
Proof.
  apply (proj2 (X_directorio_escaneado_una_vez proyecto "./Sources"
                  proyecto_bien_formado proyecto_utf8)).
  eexists. exact proyecto_alcanza.
Defined.

(** ** The shape of a run *)

(** Whatever the tree and whatever the reads give, a walk is a sequence
    of directory scans and whole records: a header is written only just
    before the file it names is opened, a file is opened only just after
    its header, and each opening is followed by exactly one write. *)
Theorem X_recorrido_en_registros (n : node) (top : string) :
  en_registros (fst (os_walk loop_body n top)).
Proof. apply os_walk_en_registros. Qed.

(** ** Paths are relative to the root *)

(** In a tree whose names are those of a directory scan, every path
    written in a header begins with [./] and names something below the
    root, and every directory scanned is the root [.] or begins with
    [./]. *)
Theorem X_rutas_relativas (fs : listing) (p : string) :
  bien_formado fs ->
  (In p (abiertos (fst (exportar fs))) ->
     exists r, p = "./" ++ r /\ r <> EmptyString)
  /\ (In p (escaneados (fst (exportar fs))) ->
     p = "." \/ exists r, p = "./" ++ r).
Proof.
  intros W. split; intros H.
  - apply abiertos_bajo in H as (r & -> & Hr); [|exact W | exact raiz_normal].
    now exists r.
  - apply escaneados_bajo in H as [-> | [r ->]];
      [now left | | exact W | exact raiz_normal].
    right. now exists r.
Qed.

Lemma X_rutas_relativas_witness :
  exists r, "./Sources/a.swift" = "./" ++ r /\ r <> EmptyString.
Proof.
  apply (proj1 (X_rutas_relativas proyecto "./Sources/a.swift"
                  proyecto_bien_formado)).
  cbn. now left.
Defined.

(** ** Creating the output file *)

(** The run is the one opening of the output file, failed with
    [[Errno 21] Is a directory], exactly when the root holds a directory,
    or a link to one, called [proyecto_swift.txt]: nothing is scanned or
    read then.  (Other failures of that opening, such as a directory
    that cannot be written, are not part of [crear].)  Over names that
    are well-formed UTF-8 a run raises in that case only. *)
Theorem X_salida_es_directorio (fs : listing) :
  ((exists c, lookup archivo_salida fs = Some c /\ is_dir c = true)
   <-> programa fs
       = ([EvOpenWrite archivo_salida],
          Raises ("[Errno 21] Is a directory: '" ++ archivo_salida ++ "'")))
  /\ (nombres_utf8 fs ->
      ((exists c, lookup archivo_salida fs = Some c /\ is_dir c = true)
       <-> exists e, snd (programa fs) = Raises e)).
Proof.
  destruct (crear archivo_salida fs) as [fs0|] eqn:C.
  - assert (K : ~ exists c, lookup archivo_salida fs = Some c /\ is_dir c = true).
    { intros (c & L & D). rewrite (crear_is_dir _ _ _ L D) in C. discriminate C. }
    split; [|intros U]; (split; [intros H; now elim K|]).
    + rewrite (programa_creado _ _ C). unfold exportar.
      destruct (os_walk_partes fs0 ".") as (k1 & k2 & E).
      intros H. apply (f_equal fst) in H. cbn [fst] in H.
      rewrite E in H. discriminate H.
    + rewrite (programa_eq _ _ U C). intros [e E]. discriminate E.
  - pose proof (crear_None _ _ C) as K.
    unfold programa. rewrite C. cbn [fst snd].
    split; [|intros _]; (split; intros _; eauto).
Qed.

Lemma crear_app (name : string) (es1 es2 : listing) (r : lectura) :
  ~ In name (map fst es1) ->
  crear name (es1 ++ (name, File r) :: es2)%list
  = Some (es1 ++ (name, File (Leido EmptyString)) :: es2)%list.
Proof.
  induction es1 as [|[n c] es1 IH]; intros H; cbn [app crear].
  - now rewrite String.eqb_refl.
  - cbn in H. destruct (String.eqb_spec n name) as [-> | _]; [tauto|].
    rewrite IH by tauto. reflexivity.
Qed.

(** The output file is opened with mode [w]: what it held before the run
    has no effect on the system calls of the run, on its outcome nor on
    the tree it leaves; a run that returns leaves in it what the run
    wrote, and so does a run that raises during the walk. *)
Theorem X_salida_sobrescrita (es1 es2 : listing) (r r' : lectura) :
  ~ In archivo_salida (map fst es1) ->
  programa (es1 ++ (archivo_salida, File r) :: es2)%list
  = programa (es1 ++ (archivo_salida, File r') :: es2)%list
  /\ (forall t fs1,
        programa (es1 ++ (archivo_salida, File r) :: es2)%list = (t, Returns fs1) ->
        lookup archivo_salida fs1 = Some (File (Leido (written t))))
  /\ lookup archivo_salida (deja (es1 ++ (archivo_salida, File r) :: es2)%list)
     = Some (File (Leido (written
                (fst (programa (es1 ++ (archivo_salida, File r) :: es2)%list))))).
Proof.
  intros H.
  pose proof (crear_app archivo_salida es1 es2 r H) as C.
  pose proof (crear_app archivo_salida es1 es2 r' H) as C'.
  rewrite (programa_creado _ _ C), (programa_creado _ _ C'), (deja_creado _ _ C).
  split; [reflexivity|]. split.
  - intros t fs1.
    destruct (snd (exportar _)); [|discriminate].
    intros [= <- <-]. apply (crear_guardar archivo_salida _ _ _ C).
  - apply (crear_guardar archivo_salida _ _ _ C).
Qed.

Lemma X_salida_sobrescrita_witness :
  programa [("b.md", File (Leido "hello"));
            (archivo_salida, File (Leido "old text"))]
  = programa [("b.md", File (Leido "hello"));
              (archivo_salida, File (Fallo "[Errno 13] Permission denied"))].
Proof.
  refine (proj1 (X_salida_sobrescrita [("b.md", File (Leido "hello"))] []
                   (Leido "old text") (Fallo "[Errno 13] Permission denied") _)).
  cbn. intuition discriminate.
Defined.

(** ** The order of the listings *)

Lemma lookup_Permutation (es es' : listing) (n : string) :
  NoDup (map fst es) -> Permutation es es' -> lookup n es = lookup n es'.
Proof.
  intros ND P.
  assert (ND' : NoDup (map fst es'))
    by (eapply Permutation_NoDup; [apply Permutation_map; exact P | exact ND]).
  destruct (lookup n es) as [c|] eqn:E.
  - symmetry. apply lookup_NoDup; [exact ND'|].
    eapply Permutation_in; [exact P | now apply lookup_In].
  - destruct (lookup n es') as [c'|] eqn:E'; [|reflexivity].
    apply lookup_In in E'. apply Permutation_sym in P.
    rewrite (lookup_NoDup es n c' ND (Permutation_in _ P E')) in E.
    discriminate E.
Qed.

Lemma Permutation_filter {A} (f : A -> bool) (l l' : list A) :
  Permutation l l' -> Permutation (filter f l) (filter f l').
Proof.
  induction 1 as [| x l l' _ IH | x y l | l l1 l2 _ IH1 _ IH2]; cbn [filter].
  - constructor.
  - destruct (f x); [now constructor | exact IH].
  - destruct (f x), (f y); try reflexivity. apply perm_swap.
  - now transitivity (filter f l1).
Qed.

Lemma flat_map_Permutation_ext {A B} (f g : A -> list B) (l : list A) :
  (forall x, In x l -> Permutation (f x) (g x)) ->
  Permutation (flat_map f l) (flat_map g l).
Proof.
  induction l as [|x l IH]; intros H; [constructor|].
  cbn [flat_map]. apply Permutation_app.
  - apply H. now left.
  - apply IH. intros y Hy. apply H. now right.
Qed.

Lemma reordenado_is_dir (c c1 : node) :
  reordenado c c1 -> is_dir c = is_dir c1.
Proof. now destruct 1. Qed.

(** Listings whose entries correspond one to one, in the same order. *)
Lemma Forall2_reordenado (es es1 : listing) :
  Forall2 (fun a b => fst a = fst b /\ reordenado (snd a) (snd b)) es es1 ->
  map fst es = map fst es1
  /\ filenames es = filenames es1
  /\ dirnames es = dirnames es1
  /\ forall d,
       match lookup d es, lookup d es1 with
       | Some c, Some c1 => reordenado c c1
       | None, None => True
       | _, _ => False
       end.
Proof.
  unfold filenames, dirnames.
  induction 1 as [|[n c] [n1 c1] es es1 [E R] _ (IH1 & IH2 & IH3 & IH4)];
    [repeat split|].
  cbn in E, R. subst n1. cbn [map fst filter snd lookup].
  rewrite <- (reordenado_is_dir _ _ R).
  repeat split.
  - now f_equal.
  - destruct (is_dir c); cbn [negb map fst]; [exact IH2 | now f_equal].
  - destruct (is_dir c); cbn [map fst]; [now f_equal | exact IH3].
  - intros d. destruct (n =? d); [exact R | apply IH4].
Qed.

Lemma nombres_utf8_Permutation (es es' : listing) :
  Permutation es es' -> nombres_utf8 es -> nombres_utf8 es'.
Proof.
  intros P U. apply nombres_utf8_intro. intros n c H.
  apply (nombres_utf8_In _ _ _ U).
  eapply Permutation_in; [apply Permutation_sym; exact P | exact H].
Qed.

(** Reordering keeps the names. *)
Lemma reordenado_utf8 (n : node) :
  forall n', nombres_utf8_nodo n -> reordenado n n' -> nombres_utf8_nodo n'.
Proof.
  induction n as [r | es IH |] using node_tree_ind; intros n' U R;
    inversion R as [| es0 es1 es' F P |]; subst; try exact I.
  cbn in U |- *. apply (nombres_utf8_Permutation es1 es' P).
  clear P R. revert IH U.
  induction F as [|[n c] [n1 c1] es es1 [E R] _ IHF]; intros IH U; [constructor|].
  cbn in E, R. subst n1.
  destruct (nombres_utf8_In _ _ _ U (or_introl eq_refl)) as [Vn Uc].
  assert (U1 : nombres_utf8 es1).
  { apply IHF.
    - intros m c' H. apply (IH m c'). now right.
    - apply nombres_utf8_intro. intros m c' H.
      apply (nombres_utf8_In _ _ _ U). now right. }
  pose proof (IH n c (or_introl eq_refl) c1 Uc R) as Uc1.
  destruct c1; constructor; auto.
Qed.

Lemma reordenado_abiertos (n : node) :
  forall n' top,
  bien_formado_nodo n -> nombres_utf8_nodo n -> utf8_valid top = true ->
  reordenado n n' ->
  Permutation (abiertos (fst (os_walk loop_body n top)))
              (abiertos (fst (os_walk loop_body n' top))).
Proof.
  induction n as [r | es IH |] using node_tree_ind; intros n' top W U V R.
  - inversion R; subst. reflexivity.
  - pose proof (reordenado_utf8 _ _ U R) as U'.
    inversion R as [| es0 es1 es' F P |]; subst. cbn in W, U, U'.
    assert (U1 : nombres_utf8 es1)
      by (apply (nombres_utf8_Permutation es' es1);
          [now apply Permutation_sym | exact U']).
    destruct (Forall2_reordenado es es1 F) as (En & Ef & Ed & L).
    transitivity (abiertos (fst (os_walk loop_body (Dir es1) top))).
    + rewrite (abiertos_os_walk _ _ U V), (abiertos_os_walk _ _ U1 V), <- Ef, <- Ed.
      apply Permutation_app_head, flat_map_Permutation_ext.
      intros d _. unfold entrar. specialize (L d).
      destruct (lookup d es) as [c|] eqn:E, (lookup d es1) as [c1|];
        try contradiction; [|reflexivity].
      apply lookup_In in E.
      destruct (nombres_utf8_In _ _ _ U E) as [Vd Uc].
      apply (IH _ _ E); [| exact Uc | now apply utf8_valid_join | exact L].
      apply (bien_formado_In _ _ _ W E).
    + assert (ND : NoDup (map fst es1))
        by (rewrite <- En; now apply bien_formado_nombres).
      rewrite (abiertos_os_walk _ _ U1 V), (abiertos_os_walk _ _ U' V).
      apply Permutation_app.
      * apply Permutation_map, Permutation_filter. unfold filenames.
        now apply Permutation_map, Permutation_filter.
      * rewrite (flat_map_ext_in
                   (fun d => abiertos (fst (entrar es1 top d)))
                   (fun d => abiertos (fst (entrar es' top d)))).
        -- apply Permutation_flat_map, Permutation_filter. unfold dirnames.
           now apply Permutation_map, Permutation_filter.
        -- intros d _. f_equal. f_equal. apply entrar_lookup.
           now apply lookup_Permutation.
  - inversion R; subst. reflexivity.
Qed.

Lemma reordenado_refl (n : node) : reordenado n n.
Proof.
  induction n as [r | es IH |] using node_tree_ind; [constructor | | constructor].
  apply reo_dir with es; [|reflexivity].
  induction es as [|[n c] es IHes]; constructor.
  - split; [reflexivity|]. apply (IH n c). now left.
  - apply IHes. intros n' c' H. apply (IH n' c'). now right.
Qed.

(** In a tree whose names are those of a directory scan and are
    well-formed UTF-8, the order in which the directories list their
    entries changes the order of the records only: both runs return, and
    the paths opened over a reordered tree are a permutation of those
    opened over the tree. *)
Theorem X_orden_del_listado (fs fs' : listing) :
  bien_formado fs ->
  nombres_utf8 fs ->
  reordenado (Dir fs) (Dir fs') ->
  Permutation (abiertos (fst (exportar fs))) (abiertos (fst (exportar fs')))
  /\ snd (exportar fs) = Returns tt
  /\ snd (exportar fs') = Returns tt.
Proof.
  intros W U R. unfold exportar. split; [|split].
  - now apply reordenado_abiertos.
  - now apply os_walk_returns.
  - apply os_walk_returns; [|reflexivity].
    exact (reordenado_utf8 (Dir fs) (Dir fs') U R).
Qed.

Lemma proyecto_reordenado_ok : reordenado (Dir proyecto) (Dir proyecto_reordenado).
Proof.
  apply reo_dir with
    [(".git", Dir [("config.json", File (Leido "{}"))]);
     ("Sources",
      Dir [("a.swift", File (Leido "let a = 1"));
           ("AppTests", Dir [("t.swift", File (Leido "XCTAssert(true)"))])]);
     ("Pods", Dir [("p.swift", File (Fallo "[Errno 5] Input/output error"))])];
    [|apply perm_swap].
  repeat constructor; cbn [fst snd]; try apply reordenado_refl.
  apply reo_dir with
    [("AppTests", Dir [("t.swift", File (Leido "XCTAssert(true)"))]);
     ("a.swift", File (Leido "let a = 1"))];
    [|apply perm_swap].
  repeat constructor; cbn [fst snd]; apply reordenado_refl.
Defined.

Lemma X_orden_del_listado_witness :
  Permutation (abiertos (fst (exportar proyecto)))
              (abiertos (fst (exportar proyecto_reordenado))).
Proof.
  exact (proj1 (X_orden_del_listado proyecto proyecto_reordenado
                  proyecto_bien_formado proyecto_utf8 proyecto_reordenado_ok)).
Defined.

(** ** An excluded directory is not scanned *)

Lemma alcanza_ultimo (es es' : listing) (top p : string) :
  alcanza es top es' p ->
  bien_formado es -> ruta_normal top ->
  p = top
  \/ exists top1 d1,
       ruta_normal top1 /\ nombre_valido d1 /\ ~ excluido d1
       /\ p = top1 ++ String sep d1.
Proof.
  induction 1 as [| es top d sub es' top' Hin Hx _ IH]; intros W N; [now left|].
  destruct (bien_formado_In _ _ _ W Hin) as [V Ws].
  destruct (join_normal _ _ N V) as [E N']. rewrite E in IH.
  right. destruct (IH Ws N') as [-> | H]; [|exact H].
  now exists top, d.
Qed.

(** In a tree whose names are those of a directory scan, the path of a
    sub-directory with an excluded name, in any visited directory, is
    never scanned. *)
Theorem X_excluido_no_escaneado
  (fs es : listing) (top d : string) (sub : listing) :
  bien_formado fs ->
  alcanza fs "." es top ->
  In (d, Dir sub) es ->
  excluido d ->
  ~ In (join top d) (escaneados (fst (exportar fs))).
Proof.
  intros W A Hin Hx H.
  destruct (alcanza_bien_formado _ _ _ _ A W raiz_normal) as [W' N'].
  destruct (bien_formado_In _ _ _ W' Hin) as [V _].
  destruct (join_normal _ _ N' V) as [E _]. rewrite E in H.
  apply escaneados_alcanza in H as (es0 & es1 & [= <-] & A1).
  destruct (alcanza_ultimo _ _ _ _ A1 W raiz_normal)
    as [K | (top1 & d1 & _ & V1 & Hx1 & K)].
  - destruct N' as [Ht _]. destruct top as [|c top]; [now elim Ht|].
    cbn in K. injection K as _ K. destruct top; discriminate K.
  - destruct (ultimo_componente _ _ _ _ (proj2 V) (proj2 V1) K) as [_ ->].
    contradiction.
Qed.

Lemma X_excluido_no_escaneado_witness :
  ~ In "./Sources/AppTests" (escaneados (fst (exportar proyecto))).
Proof.
  refine (X_excluido_no_escaneado proyecto _ "./Sources" "AppTests"
            [("t.swift", File (Leido "XCTAssert(true)"))]
            proyecto_bien_formado proyecto_alcanza (or_introl eq_refl) _).
  right; right. now exists "App", "Test", "s".
Defined.

(** ** Links to directories *)

(** In a well-formed tree a path names one directory. *)
Lemma alcanza_funcional (es0 es es' : listing) (top0 top : string) :
  alcanza es0 top0 es top ->
  bien_formado es0 -> ruta_normal top0 ->
  alcanza es0 top0 es' top -> es = es'.
Proof.
  induction 1 as [| es0 top0 d sub es top Hin Hx A IH]; intros W N A'.
  - inversion A' as [| ? ? d sub ? ? Hin _ A1]; subst; [reflexivity|].
    destruct (bien_formado_In _ _ _ W Hin) as [V Ws].
    destruct (join_normal _ _ N V) as [E N']. rewrite E in A1.
    destruct (alcanza_bajo _ _ _ _ A1 Ws N') as [K | [r K]].
    + symmetry in K. now apply append_no_fijo in K.
    + rewrite append_assoc in K. symmetry in K. now apply append_no_fijo in K.
  - destruct (bien_formado_In _ _ _ W Hin) as [V Ws].
    destruct (join_normal _ _ N V) as [E N']. rewrite E in A, IH.
    pose proof (alcanza_bajo _ _ _ _ A Ws N') as B.
    inversion A' as [| ? ? d' sub' ? ? Hin' _ A1]; subst.
    + destruct B as [K | [r K]].
      * symmetry in K. now apply append_no_fijo in K.
      * rewrite append_assoc in K. symmetry in K. now apply append_no_fijo in K.
    + destruct (bien_formado_In _ _ _ W Hin') as [V' Ws'].
      destruct (join_normal _ _ N V') as [E' N'']. rewrite E' in A1.
      pose proof (alcanza_bajo _ _ _ _ A1 Ws' N'') as B'.
      assert (D : d = d').
      { assert (X : exists x, top = top0 ++ String sep (d ++ x)
                              /\ (x = EmptyString \/ exists r, x = String sep r)).
        { destruct B as [-> | [r ->]].
          - exists EmptyString. rewrite append_empty_r. auto.
          - exists (String sep r). rewrite append_assoc. eauto. }
        assert (X' : exists x, top = top0 ++ String sep (d' ++ x)
                               /\ (x = EmptyString \/ exists r, x = String sep r)).
        { destruct B' as [-> | [r ->]].
          - exists EmptyString. rewrite append_empty_r. auto.
          - exists (String sep r). rewrite append_assoc. eauto. }
        destruct X as (x & Ex & Hx0), X' as (x' & Ex' & Hx0').
        rewrite Ex in Ex'. apply append_cancel_l in Ex'. injection Ex' as Ex'.
        exact (componente_siguiente d d' x x' (proj2 V) (proj2 V') Hx0 Hx0' Ex'). }
      subst d'.
      pose proof (bien_formado_lookup _ _ _ W Hin) as L.
      rewrite (bien_formado_lookup _ _ _ W Hin') in L. injection L as ->.
      now apply IH.
Qed.

(** A directory reached is the start or an entry of a directory
    reached. *)
Lemma alcanza_padre (es0 es1 : listing) (top0 p : string) :
  alcanza es0 top0 es1 p ->
  (p = top0 /\ es1 = es0)
  \/ exists es top d,
       alcanza es0 top0 es top /\ In (d, Dir es1) es /\ p = join top d.
Proof.
  induction 1 as [| es0 top0 d sub es1 p Hin Hx A IH]; [now left|].
  right. destruct IH as [[-> ->] | (es & top & d2 & A2 & Hin2 & ->)].
  - exists es0, top0, d. split; [constructor | auto].
  - exists es, top, d2. split; [|auto]. now apply alc_baja with d sub.
Qed.

(** [os.walk] is called without [followlinks]: in a tree whose names are
    those of a directory scan, a link to a directory found in a visited
    directory is listed among [dirs] and is never scanned, whatever its
    name. *)
Theorem X_enlace_no_seguido (fs es : listing) (top d : string) :
  bien_formado fs ->
  alcanza fs "." es top ->
  In (d, DirLink) es ->
  In d (dirnames es)
  /\ ~ In (join top d) (escaneados (fst (exportar fs))).
Proof.
  intros W A Hin. split; [apply dirnames_In; now exists DirLink|].
  intros H.
  destruct (alcanza_bien_formado _ _ _ _ A W raiz_normal) as [W' N'].
  destruct (bien_formado_In _ _ _ W' Hin) as [V _].
  destruct (join_normal _ _ N' V) as [E _].
  apply escaneados_alcanza in H as (es0 & es1 & [= <-] & A1).
  destruct (alcanza_padre _ _ _ _ A1) as [[K _] | (es2 & top2 & d2 & A2 & Hin2 & K)].
  - rewrite E in K. destruct N' as [Ht _].
    destruct top as [|c top]; [now elim Ht|].
    cbn in K. injection K as _ K. destruct top; discriminate K.
  - destruct (alcanza_bien_formado _ _ _ _ A2 W raiz_normal) as [W2 N2].
    destruct (bien_formado_In _ _ _ W2 Hin2) as [V2 _].
    destruct (join_normal _ _ N2 V2) as [E2 _].
    rewrite E, E2 in K.
    destruct (ultimo_componente _ _ _ _ (proj2 V) (proj2 V2) K) as [-> ->].
    rewrite (alcanza_funcional _ _ _ _ _ A2 W raiz_normal A) in Hin2.
    pose proof (bien_formado_lookup _ _ _ W' Hin) as L.
    rewrite (bien_formado_lookup _ _ _ W' Hin2) in L. discriminate L.
Qed.

Lemma con_enlace_bien_formado : bien_formado con_enlace.
Proof.
  repeat (first [ apply bf_nil | apply bf_file | apply bf_dir | apply bf_link ]);
    try (split; [discriminate | cbn; unfold sep; intuition discriminate]);
    cbn; intuition discriminate.
Qed.

Lemma X_enlace_no_seguido_witness :
  In "Vendor" (dirnames con_enlace)
  /\ ~ In "./Vendor" (escaneados (fst (exportar con_enlace))).
Proof.
  refine (X_enlace_no_seguido con_enlace con_enlace "." "Vendor"
            con_enlace_bien_formado (alc_aqui _ _) _).
  right. now left.
Defined.

(** ** Names that do not encode *)

Lemma for_each_raises_inv {A} (l : list A) (f : A -> M unit) (e : string) :
  snd (for_each l f) = Raises e -> exists x, In x l /\ snd (f x) = Raises e.
Proof.
  induction l as [|y l IH]; [discriminate|].
  cbn [for_each]. destruct (f y) as [t [[] | e']] eqn:E; cbn [bind].
  - destruct (for_each l f) as [t' r]. cbn [snd] in *. intros H.
    destruct (IH H) as (x & Hx & K). exists x. split; [now right | exact K].
  - cbn [snd]. intros [= ->]. exists y. rewrite E. split; [now left | reflexivity].
Qed.

(** A walk raises only at the header of a selected file it visits whose
    path does not encode. *)
Lemma os_walk_raises_inv (n : node) :
  forall top e, snd (os_walk loop_body n top) = Raises e ->
  exists es es' top' f,
    n = Dir es /\ alcanza es top es' top' /\ In f (filenames es')
    /\ seleccionado f = true /\ utf8_valid (join top' f) = false.
Proof.
  induction n as [r | es IH |] using node_tree_ind; intros top e H;
    try discriminate H.
  exists es. rewrite os_walk_seq in H.
  destruct (for_each (filenames es) (procesar es top)) as [t1 [[] | e1]] eqn:E1.
  - destruct (for_each (filter conservar (dirnames es)) (entrar es top))
      as [t2 r2] eqn:E2.
    cbn [emit bind snd] in H.
    assert (K : snd (for_each (filter conservar (dirnames es)) (entrar es top))
                = Raises e) by now rewrite E2.
    apply for_each_raises_inv in K as (d & Hd & K). unfold entrar in K.
    destruct (lookup d es) as [c|] eqn:L; [|discriminate K].
    pose proof (lookup_In _ _ _ L) as Hin.
    destruct (IH _ _ Hin _ _ K) as (sub & es' & top' & f & -> & A & R).
    exists es', top', f. split; [reflexivity|]. split; [|exact R].
    apply alc_baja with d sub; [exact Hin | | exact A].
    apply filter_In in Hd as [_ Hd]. now apply conservar_no_excluido.
  - assert (K : snd (for_each (filenames es) (procesar es top)) = Raises e1)
      by now rewrite E1.
    apply for_each_raises_inv in K as (f & Hf & K).
    exists es, top, f. split; [reflexivity|]. split; [constructor|].
    split; [exact Hf|].
    destruct (procesar_casos es top f)
      as [[_ P] | [(S & V & _) | (_ & _ & c & P)]]; auto;
      rewrite P in K; discriminate K.
Qed.

Lemma os_walk_raises_visitado (es es' : listing) (top top' f : string) :
  alcanza es top es' top' ->
  bien_formado es ->
  In f (filenames es') -> seleccionado f = true ->
  utf8_valid (join top' f) = false ->
  exists e, snd (os_walk loop_body (Dir es) top) = Raises e.
Proof.
  induction 1 as [| es top d sub es' top' Hin Hx A IH]; intros W Hf S V;
    rewrite os_walk_seq.
  - destruct (for_each_raises (filenames es) (procesar es top) f Hf) as [e K].
    + rewrite (procesar_no_codificable es top f S V). cbn [snd]. eauto.
    + destruct (for_each (filenames es) (procesar es top)) as [t [[] | e1]];
        [discriminate K|]. cbn [emit bind snd]. eauto.
  - destruct (for_each (filenames es) (procesar es top)) as [t [[] | e1]];
      [|cbn [emit bind snd]; eauto].
    destruct (bien_formado_In _ _ _ W Hin) as [_ Ws].
    assert (Hd : In d (filter conservar (dirnames es))).
    { apply filter_In. split.
      - apply dirnames_In. now exists (Dir sub).
      - now apply conservar_no_excluido. }
    destruct (for_each_raises (filter conservar (dirnames es)) (entrar es top) d Hd)
      as [e K].
    + rewrite (entrar_Dir _ top _ _ W Hin). now apply IH.
    + destruct (for_each (filter conservar (dirnames es)) (entrar es top))
        as [t2 r2]. cbn [emit bind snd] in *. eauto.
Qed.

(** The header is written outside the [try]: in a tree whose names are
    those of a directory scan, the walk raises exactly when it visits a
    selected file whose path is not well-formed UTF-8; the [str] of such
    a path holds a lone surrogate, which [fout] cannot encode.  The
    files and directories that follow it in the walk are not visited. *)
Theorem X_aborta_por_nombre (fs : listing) :
  bien_formado fs ->
  ((exists e, snd (exportar fs) = Raises e)
   <-> exists es top f,
         alcanza fs "." es top /\ In f (filenames es)
         /\ seleccionado f = true /\ utf8_valid (join top f) = false)
  /\ (forall es root f resto,
        seleccionado f = true -> utf8_valid (join root f) = false ->
        fst (for_each (f :: resto) (procesar es root)) = []).
Proof.
  intros W. split; [split|].
  - intros [e H].
    apply os_walk_raises_inv in H as (es0 & es & top & f & [= <-] & R).
    now exists es, top, f.
  - intros (es & top & f & A & Hf & S & V).
    exact (os_walk_raises_visitado _ _ _ _ _ A W Hf S V).
  - intros es root f resto S V. cbn [for_each].
    now rewrite (procesar_no_codificable es root f S V).
Qed.

Lemma con_nombre_latin1_bien_formado : bien_formado con_nombre_latin1.
Proof.
  repeat (first [ apply bf_nil | apply bf_file | apply bf_dir | apply bf_link ]);
    try (split; [discriminate | cbn; unfold sep; intuition discriminate]);
    cbn; intuition discriminate.
Qed.

Lemma X_aborta_por_nombre_witness :
  (exists e, snd (exportar con_nombre_latin1) = Raises e)
  /\ documento con_nombre_latin1 = EmptyString.
Proof.
  split; [|reflexivity].
  apply (proj1 (X_aborta_por_nombre con_nombre_latin1
                  con_nombre_latin1_bien_formado)).
  exists con_nombre_latin1, ".", nombre_latin1.
  split; [constructor|]. split; [now left|]. split; reflexivity.
Defined.

(** ** The text read from a file *)

Lemma universal_newlines_sin_CR (s : string) :
  ~ occurs CR (universal_newlines s).
Proof.
  induction s as [s IH] using string_length_ind.
  destruct s as [|a s1]; [exact (fun H => H)|].
  cbn [universal_newlines].
  destruct (Ascii.eqb_spec a CR) as [-> | N].
  - destruct s1 as [|b s2].
    + cbn. intuition discriminate.
    + destruct (Ascii.eqb b LF); cbn [occurs]; intros [K | K];
        try discriminate K; revert K; por_longitud IH.
  - cbn [occurs]. intros [K | K]; [contradiction|].
    revert K. por_longitud IH.
Qed.

Lemma universal_newlines_length (s : string) :
  String.length (universal_newlines s) <= String.length s.
Proof.
  induction s as [s IH] using string_length_ind.
  destruct s as [|a s1]; [reflexivity|].
  cbn [universal_newlines].
  destruct (Ascii.eqb a CR).
  - destruct s1 as [|b s2]; [reflexivity|].
    destruct (Ascii.eqb b LF); cbn [String.length].
    + assert (String.length (universal_newlines s2) <= String.length s2)
        by por_longitud IH. lia.
    + assert (String.length (universal_newlines (String b s2))
              <= String.length (String b s2)) by por_longitud IH.
      cbn [String.length] in *. lia.
  - cbn [String.length].
    assert (String.length (universal_newlines s1) <= String.length s1)
      by por_longitud IH. lia.
Qed.

Lemma decode_ignore_length (s : string) :
  String.length (decode_ignore s) <= String.length s.
Proof.
  induction s as [s IH] using string_length_ind.
  assert (K : forall t, String.length t < String.length s ->
                        String.length (decode_ignore t) <= String.length t)
    by exact IH.
  destruct s as [|a s1]; [reflexivity|].
  cbn [decode_ignore]. cbn [String.length] in K |- *.
  pose proof (K s1 ltac:(lia)) as K1.
  destruct (lead a) as [|[|[|[|[|k]]]]]; try lia.
  - cbn [String.length]. lia.
  - destruct s1 as [|b s2]; cbn [String.length] in *; [lia|].
    pose proof (K s2 ltac:(lia)) as K2.
    destruct (is_cont b); cbn [String.length]; lia.
  - destruct s1 as [|b s2]; cbn [String.length] in *; [lia|].
    pose proof (K s2 ltac:(lia)) as K2.
    destruct (second3 a b); [|lia].
    destruct s2 as [|c s3]; cbn [String.length] in *; [lia|].
    pose proof (K s3 ltac:(lia)) as K3.
    destruct (is_cont c); cbn [String.length]; lia.
  - destruct s1 as [|b s2]; cbn [String.length] in *; [lia|].
    pose proof (K s2 ltac:(lia)) as K2.
    destruct (second4 a b); [|lia].
    destruct s2 as [|c s3]; cbn [String.length] in *; [lia|].
    pose proof (K s3 ltac:(lia)) as K3.
    destruct (is_cont c); [|lia].
    destruct s3 as [|d s4]; cbn [String.length] in *; [lia|].
    pose proof (K s4 ltac:(lia)) as K4.
    destruct (is_cont d); cbn [String.length]; lia.
Qed.

(** What [fin.read()] returns under [encoding='utf-8', errors='ignore']
    always encodes, so the write of the content never raises; it holds
    no carriage return and is never longer than the file; it is the
    content of the file when that is well-formed UTF-8 without carriage
    return, and reading such a text again changes nothing. *)
Theorem X_texto_leido (contenido : string) :
  utf8_valid (read_text contenido) = true
  /\ fout_write (read_text contenido) = emit (EvFoutWrite (read_text contenido))
  /\ ~ occurs CR (read_text contenido)
  /\ String.length (read_text contenido) <= String.length contenido
  /\ (utf8_valid contenido = true -> ~ occurs CR contenido ->
      read_text contenido = contenido)
  /\ read_text (read_text contenido) = read_text contenido.
Proof.
  pose proof (read_text_valid contenido) as V.
  pose proof (universal_newlines_sin_CR (decode_ignore contenido)) as N.
  fold (read_text contenido) in N.
  split; [exact V|]. split; [unfold fout_write; now rewrite V|].
  split; [exact N|]. split; [|split].
  - unfold read_text.
    pose proof (universal_newlines_length (decode_ignore contenido)).
    pose proof (decode_ignore_length contenido). lia.
  - apply read_text_id.
  - now apply read_text_id.
Qed.

